(** * FilteredCommand: matching a search filter against a command name

    A shallow embedding of [src/cascadia/TerminalApp/FilteredCommand.cpp]:
    the segmentation of a command name into matched and unmatched runs
    ([_computeHighlightedName]), the weight of a segmentation
    ([_computeWeight]), the view model that keeps both up to date
    ([UpdateFilter] and the [PropertyChanged] handler) and the ordering
    used to sort the filtered commands ([Compare]). *)

From Stdlib Require Import List ZArith Lia Bool Arith Sorted.
From Stdlib Require String Ascii.
From Equations Require Import Equations.
From Equations.Prop Require Import Logic.
Import ListNotations.
Import String.StringSyntax.

(** ** Strings

    A [winrt::hstring] is a sequence of UTF-16 code units ([wchar_t]).  Its
    [size()] is a [uint32_t], so every offset into a name stays below
    [2^32] and the offset arithmetic of the segmenter, which only ever
    increments an offset that is below [size()] or subtracts a smaller
    offset from a larger one (invariant [scan_inv], lemma [scan_char_spec]),
    never wraps: offsets are natural numbers here. *)

Definition wchar := Z.
Definition hstring := list wchar.

Definition size (s : hstring) : nat := length s.

(** [hstring{ s.data() + offset, count }] *)
Definition substr (s : hstring) (offset count : nat) : hstring :=
  firstn count (skipn offset s).

(** A string literal [L"..."] of ASCII characters. *)
Definition L (s : String.string) : hstring :=
  map (fun c => Z.of_N (Ascii.N_of_ascii c)) (String.list_ascii_of_string s).

Arguments L s%_string_scope.

(** ** Highlighted text *)

Record HighlightedTextSegment := make_HighlightedTextSegment
  { TextSegment : hstring;
    IsHighlighted : bool }.

(** A [HighlightedText] is the vector of its [Segments()]. *)
Definition HighlightedText := list HighlightedTextSegment.

(** ** The segmenter: [FilteredCommand::_computeHighlightedName] *)

(** The local variables of the function. *)
Record scan := mk_scan
  { segments : list HighlightedTextSegment;
    isProcessingMatchedSegment : bool;
    nextOffsetToReport : nat;
    currentOffset : nat }.

(** How the [while (true)] loop is left: by the [return] of the whole
    function, or by [break]. *)
Inductive loop_exit :=
| Return (result : HighlightedText)
| Break (st : scan).

(** Lines 97 to 111: when the classification of the current character
    differs from that of the run being processed, the run is concluded:
    appended when it is not empty, and the classification is switched. *)
Definition conclude_region (commandName : hstring) (isCurrentCharMatched : bool)
    (st : scan) : scan :=
  if eqb (isProcessingMatchedSegment st) isCurrentCharMatched then st
  else
    let sizeToReport := currentOffset st - nextOffsetToReport st in
    let st' :=
      if 0 <? sizeToReport then
        let segment := substr commandName (nextOffsetToReport st) sizeToReport in
        let highlightedSegment :=
          make_HighlightedTextSegment segment (isProcessingMatchedSegment st) in
        {| segments := segments st ++ [highlightedSegment];
           isProcessingMatchedSegment := isProcessingMatchedSegment st;
           nextOffsetToReport := currentOffset st;
           currentOffset := currentOffset st |}
      else st in
    {| segments := segments st';
       isProcessingMatchedSegment := isCurrentCharMatched;
       nextOffsetToReport := nextOffsetToReport st';
       currentOffset := currentOffset st' |}.

(** Line 113: [currentOffset++]. *)
Definition advance (st : scan) : scan :=
  {| segments := segments st;
     isProcessingMatchedSegment := isProcessingMatchedSegment st;
     nextOffsetToReport := nextOffsetToReport st;
     currentOffset := S (currentOffset st) |}.

(** Lines 96 to 113, one character of the name. *)
Definition scan_char (commandName : hstring) (isCurrentCharMatched : bool)
    (st : scan) : scan :=
  advance (conclude_region commandName isCurrentCharMatched st).

Section Segmenter.

(** [std::towlower] belongs to the C library and depends on the locale:
    the segmenter is verified for every such function. *)
Variable towlower : wchar -> wchar.

(** Lines 84 to 120, the [while (true)] loop for one filter character.
    The loop reads [commandName[currentOffset]] after having checked
    [currentOffset == commandName.size()]; [currentOffset] never exceeds
    the size, so that check is the lookup being out of range (lemma
    [size_check]). *)
Equations? scan_name (commandName : hstring) (lowerCaseSearchChar : wchar)
    (st : scan) : loop_exit
    by wf (size commandName - currentOffset st) lt :=
  scan_name commandName lowerCaseSearchChar st
    with inspect (nth_error commandName (currentOffset st)) := {
    | exist _ None _ :=
        (* There are still unmatched filter characters but we finished
           scanning the name. *)
        let entireNameSegment := make_HighlightedTextSegment commandName false in
        Return [entireNameSegment];
    | exist _ (Some c) Hc
        with inspect (towlower c =? lowerCaseSearchChar)%Z := {
        | exist _ true _ := Break (scan_char commandName true st);
        | exist _ false _ :=
            scan_name commandName lowerCaseSearchChar
              (scan_char commandName false st) } }.
Proof.
  assert (currentOffset st < length commandName)
    by (apply nth_error_Some; congruence).
  unfold conclude_region, size.
  destruct (eqb _ _); [|destruct (0 <? _)%nat]; simpl; lia.
Qed.

(** Lines 81 to 121, the [for] loop over the filter characters. *)
Fixpoint scan_filter (commandName : hstring) (filter : hstring) (st : scan)
    : loop_exit :=
  match filter with
  | [] => Break st
  | searchChar :: filter' =>
      let lowerCaseSearchChar := towlower searchChar in
      match scan_name commandName lowerCaseSearchChar st with
      | Return result => Return result
      | Break st' => scan_filter commandName filter' st'
      end
  end.

(** Lines 125 to 135. *)
Definition conclude_matched (commandName : hstring) (st : scan) : scan :=
  if isProcessingMatchedSegment st then
    let sizeToReport := currentOffset st - nextOffsetToReport st in
    if 0 <? sizeToReport then
      let segment := substr commandName (nextOffsetToReport st) sizeToReport in
      let highlightedSegment := make_HighlightedTextSegment segment true in
      {| segments := segments st ++ [highlightedSegment];
         isProcessingMatchedSegment := isProcessingMatchedSegment st;
         nextOffsetToReport := currentOffset st;
         currentOffset := currentOffset st |}
    else st
  else st.

(** Lines 139 to 147. *)
Definition conclude_remaining (commandName : hstring) (st : scan)
    : HighlightedText :=
  let sizeToReport := size commandName - nextOffsetToReport st in
  if 0 <? sizeToReport then
    let segment := substr commandName (nextOffsetToReport st) sizeToReport in
    let highlightedSegment := make_HighlightedTextSegment segment false in
    segments st ++ [highlightedSegment]
  else segments st.

(** The method reads [_Command.Name()] and [_Filter]; they are its
    arguments here. *)
Definition _computeHighlightedName (commandName _Filter : hstring)
    : HighlightedText :=
  let st := {| segments := [];
               isProcessingMatchedSegment := false;
               nextOffsetToReport := 0;
               currentOffset := 0 |} in
  match scan_filter commandName _Filter st with
  | Return result => result
  | Break st' => conclude_remaining commandName (conclude_matched commandName st')
  end.

End Segmenter.

(** [towlower] in the "C" locale: the letters A to Z are mapped to a to z,
    every other code unit is left as it is. *)
Definition towlower_C (c : wchar) : wchar :=
  if ((65 <=? c) && (c <=? 90))%Z then (c + 32)%Z else c.

(** The text the segments of a [HighlightedText] spell, and the offsets in
    that text of the characters of its highlighted segments, the first
    segment starting at [offset]. *)
Definition texts (segs : HighlightedText) : hstring :=
  concat (map TextSegment segs).

Fixpoint highlighted_offsets (offset : nat) (segs : HighlightedText) : list nat :=
  match segs with
  | [] => []
  | s :: segs' =>
      (if IsHighlighted s then seq offset (length (TextSegment s)) else [])
      ++ highlighted_offsets (offset + length (TextSegment s)) segs'
  end.

(** ** The weigher: [FilteredCommand::_computeWeight]

    [result] is an [int] and [segmentSize] a [uint32_t]: the score of a
    segment is computed modulo [2^32], and adding it to [result] converts
    the sum back to the 32-bit signed range. *)

Local Open Scope Z_scope.

Definition wrap_uint32 (z : Z) : Z := z mod 2 ^ 32.
Definition wrap_int32 (z : Z) : Z := (z + 2 ^ 31) mod 2 ^ 32 - 2 ^ 31.

(** [segmentText.size()] and [segmentText[i]] in the integer types of the
    weigher. *)
Definition size32 (s : hstring) : Z := Z.of_nat (size s).
Definition char_at (s : hstring) (i : Z) : wchar := nth (Z.to_nat i) s 0.

Definition space : wchar := 32.

(** Lines 196 to 211, the body of the loop over the segments; the state is
    [(result, isNextSegmentWordBeginning)]. *)
Definition weigh_segment (acc : Z * bool) (segment : HighlightedTextSegment)
    : Z * bool :=
  let '(result, isNextSegmentWordBeginning) := acc in
  let segmentText := TextSegment segment in
  let segmentSize := size32 segmentText in
  let result :=
    if IsHighlighted segment then
      (* Give extra point for each consecutive match *)
      let result :=
        wrap_int32 (result + (if segmentSize <=? 1 then segmentSize
                              else wrap_uint32 (1 + 2 * (segmentSize - 1)))) in
      (* Give extra point if this segment is at the beginning of a word
         ([result++], taken to wrap like the addition above) *)
      if isNextSegmentWordBeginning then wrap_int32 (result + 1) else result
    else result in
  (result,
   (0 <? segmentSize) && (char_at segmentText (segmentSize - 1) =? space)).

(** The method reads [_HighlightedName.Segments()]; they are its argument
    here. *)
Definition _computeWeight (_HighlightedName : HighlightedText) : Z :=
  fst (fold_left weigh_segment _HighlightedName (0, true)).

(** ** The view model *)

(** The fields of a [FilteredCommand].  [_Command_Name] is the name of the
    command model the object wraps, which the model may change.
    [highlightedNamesMade] is a ghost field: it counts the [HighlightedText]
    objects that [_computeHighlightedName] has made for this command, and so
    stands for the identity of the object in [_HighlightedName]. *)
Record FilteredCommand := mk_FilteredCommand
  { _Command_Name : hstring;
    _Filter : hstring;
    _HighlightedName : HighlightedText;
    _Weight : Z;
    highlightedNamesMade : nat }.

Definition hstring_eq_dec : forall a b : hstring, {a = b} + {a <> b} :=
  list_eq_dec Z.eq_dec.

(** The setters of the observable properties [Filter], [HighlightedName]
    and [Weight] are generated in the header: they store the value (and
    raise [PropertyChanged] for it). *)
Definition set_Filter (value : hstring) (this : FilteredCommand) :=
  {| _Command_Name := _Command_Name this;
     _Filter := value;
     _HighlightedName := _HighlightedName this;
     _Weight := _Weight this;
     highlightedNamesMade := highlightedNamesMade this |}.

Definition set_HighlightedName (value : HighlightedText) (this : FilteredCommand) :=
  {| _Command_Name := _Command_Name this;
     _Filter := _Filter this;
     _HighlightedName := value;
     _Weight := _Weight this;
     highlightedNamesMade := highlightedNamesMade this |}.

Definition set_Weight (value : Z) (this : FilteredCommand) :=
  {| _Command_Name := _Command_Name this;
     _Filter := _Filter this;
     _HighlightedName := _HighlightedName this;
     _Weight := value;
     highlightedNamesMade := highlightedNamesMade this |}.

(** The command model changes its name (before it raises
    [PropertyChanged]). *)
Definition set_Command_Name (value : hstring) (this : FilteredCommand) :=
  {| _Command_Name := value;
     _Filter := _Filter this;
     _HighlightedName := _HighlightedName this;
     _Weight := _Weight this;
     highlightedNamesMade := highlightedNamesMade this |}.

Section ViewModel.

Variable towlower : wchar -> wchar.

(** A call of the method [_computeHighlightedName()] on [this]: the new
    object and [this] with the ghost count increased. *)
Definition call_computeHighlightedName (this : FilteredCommand)
    : HighlightedText * FilteredCommand :=
  (_computeHighlightedName towlower (_Command_Name this) (_Filter this),
   {| _Command_Name := _Command_Name this;
      _Filter := _Filter this;
      _HighlightedName := _HighlightedName this;
      _Weight := _Weight this;
      highlightedNamesMade := S (highlightedNamesMade this) |}).

(** Lines 24 to 29, the constructor (the subscription to the command's
    [PropertyChanged] is [on_Command_PropertyChanged] below). *)
Definition construct (command_Name : hstring) : FilteredCommand :=
  let this := {| _Command_Name := command_Name;
                 _Filter := [];
                 _HighlightedName := [];
                 _Weight := 0;
                 highlightedNamesMade := 0%nat |} in
  let '(value, this) := call_computeHighlightedName this in
  set_HighlightedName value this.

(** Lines 36 and 37, and lines 49 and 50. *)
Definition recompute (this : FilteredCommand) : FilteredCommand :=
  let '(value, this) := call_computeHighlightedName this in
  let this := set_HighlightedName value this in
  set_Weight (_computeWeight (_HighlightedName this)) this.

(** Lines 32 to 39, the handler of the command's [PropertyChanged]. *)
Definition on_Command_PropertyChanged (PropertyName : hstring)
    (this : FilteredCommand) : FilteredCommand :=
  if hstring_eq_dec PropertyName (L "Name") then recompute this else this.

(** Lines 42 to 52. *)
Definition UpdateFilter (filter : hstring) (this : FilteredCommand)
    : FilteredCommand :=
  if hstring_eq_dec filter (_Filter this) then this
  else recompute (set_Filter filter this).

End ViewModel.

(** ** The ordering: [FilteredCommand::Compare] *)

(** [std::char_traits<wchar_t>::compare] over the first [n] code units, as
    the C++ standard defines it ([wchar_t] is unsigned on this platform). *)
Fixpoint traits_compare (a b : hstring) (n : nat) : Z :=
  match n, a, b with
  | S n', x :: a', y :: b' =>
      if x <? y then -1 else if y <? x then 1 else traits_compare a' b' n'
  | _, _, _ => 0
  end.

(** [std::wstring_view::compare], as the C++ standard defines it. *)
Definition wstring_view_compare (a b : hstring) : Z :=
  let rlen := Nat.min (size a) (size b) in
  let r := traits_compare a b rlen in
  if r =? 0 then
    if (size a <? size b)%nat then -1
    else if (size b <? size a)%nat then 1 else 0
  else r.

(** Lines 225 to 238.  The result is the [int] a [bool] converts to. *)
Definition Compare (first second : FilteredCommand) : Z :=
  let firstWeight := _Weight first in
  let secondWeight := _Weight second in
  if firstWeight =? secondWeight then
    let firstName := _Command_Name first in
    let secondName := _Command_Name second in
    Z.b2z (wstring_view_compare firstName secondName <? 0)
  else Z.b2z (firstWeight >? secondWeight).

Local Close Scope Z_scope.

(** ** What the specification says, in its own words *)

(** [s] is a subsequence of [l]. *)
Inductive Subsequence {A : Type} : list A -> list A -> Prop :=
| Subsequence_nil l : Subsequence [] l
| Subsequence_take x s l : Subsequence s l -> Subsequence (x :: s) (x :: l)
| Subsequence_skip x s l : Subsequence s l -> Subsequence s (x :: l).

(** The same, decided. *)
Fixpoint subsequenceb (s l : hstring) : bool :=
  match s, l with
  | [], _ => true
  | _ :: _, [] => false
  | x :: s', y :: l' =>
      if (x =? y)%Z then subsequenceb s' l' else subsequenceb s l'
  end.

Section Greedy.

Variable towlower : wchar -> wchar.

(** The greedy left-to-right assignment of the filter to the name, from
    a cursor on: each filter character is matched to the first character
    of the name at or after the cursor whose lowercase form is its
    lowercase form, and the cursor moves behind that character. *)
Inductive GreedyAssignment (name : hstring)
    : nat -> hstring -> list nat -> Prop :=
| Greedy_done cursor : GreedyAssignment name cursor [] []
| Greedy_match cursor searchChar filter i c offsets :
    cursor <= i ->
    nth_error name i = Some c ->
    towlower c = towlower searchChar ->
    (forall j c', cursor <= j < i -> nth_error name j = Some c' ->
                  towlower c' <> towlower searchChar) ->
    GreedyAssignment name (S i) filter offsets ->
    GreedyAssignment name cursor (searchChar :: filter) (i :: offsets).

End Greedy.

(** The weight as the specification defines it: the sum over the segments
    of the points of each one. *)
Section ReferenceWeight.

Local Open Scope Z_scope.

(** A segment starts at a word start when it is the first one, or when
    the previous segment is not empty and ends in a space. *)
Definition word_start_after (previous : option HighlightedTextSegment) : bool :=
  match previous with
  | None => true
  | Some p =>
      match TextSegment p with
      | [] => false
      | _ :: _ => last (TextSegment p) 0 =? space
      end
  end.

(** A highlighted segment of length [len] scores [len] when [len <= 1]
    and [1 + 2 * (len - 1)] otherwise, and one more at a word start. *)
Definition segment_points (at_word_start : bool) (s : HighlightedTextSegment) : Z :=
  if IsHighlighted s then
    let len := Z.of_nat (length (TextSegment s)) in
    (if len <=? 1 then len else 1 + 2 * (len - 1))
    + (if at_word_start then 1 else 0)
  else 0.

Fixpoint reference_weight_from (previous : option HighlightedTextSegment)
    (segs : HighlightedText) : Z :=
  match segs with
  | [] => 0
  | s :: segs' =>
      segment_points (word_start_after previous) s
      + reference_weight_from (Some s) segs'
  end.

Definition reference_weight (segs : HighlightedText) : Z :=
  reference_weight_from None segs.

(** The largest value of an [int]. *)
Definition INT_MAX : Z := 2 ^ 31 - 1.

End ReferenceWeight.

(** [a] precedes [b] in the lexicographic order by code unit. *)
Inductive lex_lt : hstring -> hstring -> Prop :=
| lex_lt_nil y b : lex_lt [] (y :: b)
| lex_lt_head x a y b : (x < y)%Z -> lex_lt (x :: a) (y :: b)
| lex_lt_tail x a b : lex_lt a b -> lex_lt (x :: a) (x :: b).

(** The derived fields of a [FilteredCommand] are consistent with its name
    and its filter. *)
Definition consistent (towlower : wchar -> wchar) (this : FilteredCommand) : Prop :=
  _HighlightedName this
  = _computeHighlightedName towlower (_Command_Name this) (_Filter this) /\
  _Weight this = _computeWeight (_HighlightedName this).

(** What happens to a [FilteredCommand] once it is constructed: its filter
    is updated, its command changes its name and notifies it, or its
    command notifies it of a property that changed, the name being as it
    was. *)
Inductive event :=
| UpdateFilter_called (filter : hstring)
| Name_changed (name : hstring)
| Property_changed (PropertyName : hstring).

Definition handle (towlower : wchar -> wchar) (this : FilteredCommand) (e : event)
    : FilteredCommand :=
  match e with
  | UpdateFilter_called filter => UpdateFilter towlower filter this
  | Name_changed name =>
      on_Command_PropertyChanged towlower (L "Name") (set_Command_Name name this)
  | Property_changed PropertyName =>
      on_Command_PropertyChanged towlower PropertyName this
  end.

Definition history (towlower : wchar -> wchar) (command_Name : hstring)
    (events : list event) : FilteredCommand :=
  fold_left (handle towlower) events (construct towlower command_Name).

(** ** Invariants *)

(** What holds of the local variables whenever the loops are entered or
    left. *)
Record scan_inv (commandName : hstring) (st : scan) : Prop :=
  { offsets_ordered :
      nextOffsetToReport st <= currentOffset st <= size commandName;
    texts_reported :
      texts (segments st) = firstn (nextOffsetToReport st) commandName;
    segments_nonempty :
      Forall (fun s => TextSegment s <> []) (segments st) }.

(** The offsets classified as matched so far: those of the highlighted
    segments and, when a matched run is being processed, those of the run. *)
Definition marks (st : scan) : list nat :=
  highlighted_offsets 0 (segments st)
  ++ (if isProcessingMatchedSegment st
      then seq (nextOffsetToReport st) (currentOffset st - nextOffsetToReport st)
      else []).

(** A highlighted segment is not empty. *)
Definition highlighted_nonempty (s : HighlightedTextSegment) : Prop :=
  IsHighlighted s = true -> TextSegment s <> [].

(** Neighbouring segments differ in their classification. *)
Fixpoint alternating (segs : HighlightedText) : bool :=
  match segs with
  | a :: (b :: _) as rest =>
      negb (eqb (IsHighlighted a) (IsHighlighted b)) && alternating rest
  | _ => true
  end.

(** The segments appended so far alternate, and the last one is followed by
    a run that is not empty and of the other classification. *)
Definition run_inv (st : scan) : Prop :=
  alternating (segments st) = true /\
  (segments st <> [] ->
   nextOffsetToReport st < currentOffset st /\
   last (map IsHighlighted (segments st)) false
   = negb (isProcessingMatchedSegment st)).

(** The lengths and the classifications of the segments, without their
    texts. *)
Definition shape (segs : HighlightedText) : list (nat * bool) :=
  map (fun s => (length (TextSegment s), IsHighlighted s)) segs.

(** Two states of the segmenter that differ in the texts of their segments
    only, and two exits of its loops that do. *)
Definition same_shape (st1 st2 : scan) : Prop :=
  shape (segments st1) = shape (segments st2) /\
  isProcessingMatchedSegment st1 = isProcessingMatchedSegment st2 /\
  nextOffsetToReport st1 = nextOffsetToReport st2 /\
  currentOffset st1 = currentOffset st2.

Definition same_exit (e1 e2 : loop_exit) : Prop :=
  match e1, e2 with
  | Return r1, Return r2 => shape r1 = shape r2
  | Break st1, Break st2 => same_shape st1 st2
  | _, _ => False
  end.

(** The fields of a [FilteredCommand] that its users read. *)
Definition same_properties (a b : FilteredCommand) : Prop :=
  _Command_Name a = _Command_Name b /\
  _Filter a = _Filter b /\
  _HighlightedName a = _HighlightedName b /\
  _Weight a = _Weight b.

Ltac scan_fields :=
  cbn [segments isProcessingMatchedSegment nextOffsetToReport currentOffset
       advance eqb TextSegment IsHighlighted] in *.

(** * Verification *)

(** ** Lists *)

Lemma firstn_substr (l : hstring) a b :
  a <= b -> firstn a l ++ substr l a (b - a) = firstn b l.
Proof.
  intros Hab. unfold substr. rewrite firstn_skipn_comm.
  replace (a + (b - a)) with b by lia.
  replace (firstn a l) with (firstn a (firstn b l))
    by (rewrite firstn_firstn; f_equal; lia).
  apply firstn_skipn.
Qed.

Lemma length_substr (l : hstring) a n :
  a + n <= length l -> length (substr l a n) = n.
Proof.
  intros H. unfold substr. rewrite length_firstn, length_skipn. lia.
Qed.

Lemma skipn_nth_error {A} (l : list A) n [c] :
  nth_error l n = Some c -> skipn n l = c :: skipn (S n) l.
Proof.
  revert l; induction n as [|n IH]; intros [|x l] H; simpl in *; try discriminate.
  - congruence.
  - apply IH, H.
Qed.

Lemma texts_app a b : texts (a ++ b) = texts a ++ texts b.
Proof. unfold texts. rewrite map_app, concat_app. reflexivity. Qed.

Lemma highlighted_offsets_app o a b :
  highlighted_offsets o (a ++ b) =
  highlighted_offsets o a ++ highlighted_offsets (o + length (texts a)) b.
Proof.
  revert o; induction a as [|s a IH]; intros o; simpl.
  - rewrite Nat.add_0_r. reflexivity.
  - unfold texts in *; simpl. rewrite IH, length_app, <- app_assoc, Nat.add_assoc.
    reflexivity.
Qed.

(** ** The segmenter *)

Lemma scan_inv_append [commandName st] b :
  scan_inv commandName st ->
  0 < currentOffset st - nextOffsetToReport st ->
  let seg := make_HighlightedTextSegment
               (substr commandName (nextOffsetToReport st)
                  (currentOffset st - nextOffsetToReport st)) b in
  texts (segments st ++ [seg]) = firstn (currentOffset st) commandName /\
  Forall (fun s => TextSegment s <> []) (segments st ++ [seg]) /\
  highlighted_offsets 0 (segments st ++ [seg]) =
  highlighted_offsets 0 (segments st)
  ++ (if b then seq (nextOffsetToReport st)
                (currentOffset st - nextOffsetToReport st) else []).
Proof.
  intros [Ho Ht Hn] Hpos seg. unfold size in Ho.
  assert (Hlen : length (TextSegment seg)
                 = currentOffset st - nextOffsetToReport st)
    by (apply length_substr; lia).
  repeat split.
  - rewrite texts_app, Ht. unfold texts; simpl. rewrite app_nil_r.
    apply firstn_substr; lia.
  - apply Forall_app; split; [assumption|].
    constructor; [|constructor].
    intros E. rewrite E in Hlen. simpl in Hlen. lia.
  - rewrite highlighted_offsets_app. f_equal.
    cbn [highlighted_offsets IsHighlighted seg]. rewrite app_nil_r, Hlen, Ht.
    rewrite length_firstn, Nat.min_l by lia. reflexivity.
Qed.

Lemma scan_char_spec [commandName] m [st] :
  scan_inv commandName st ->
  currentOffset st < size commandName ->
  let st' := scan_char commandName m st in
  scan_inv commandName st' /\
  currentOffset st' = S (currentOffset st) /\
  isProcessingMatchedSegment st' = m /\
  marks st' = marks st ++ (if m then [currentOffset st] else []).
Proof.
  intros Hinv Hlt.
  pose proof (scan_inv_append (isProcessingMatchedSegment st) Hinv) as Happ.
  destruct Hinv as [Ho Ht Hn].
  unfold scan_char, conclude_region, marks.
  destruct st as [segs p next cur]; scan_fields.
  destruct p, m; scan_fields;
    try (destruct (Nat.ltb_spec 0 (cur - next)) as [Hpos|Hz];
         [destruct (Happ Hpos) as (Ht' & Hn' & Hh'); clear Happ|]);
    scan_fields;
    (split; [constructor; scan_fields; try assumption; try lia|]);
    (split; [reflexivity|]); (split; [reflexivity|]);
    rewrite ?Hh', ?app_nil_r, <- ?app_assoc; try reflexivity; f_equal.
  - replace (S cur - next) with (S (cur - next)) by lia.
    rewrite seq_S. do 2 f_equal. lia.
  - replace (S cur - next) with (S (cur - next)) by lia.
    rewrite seq_S. do 2 f_equal. lia.
  - replace (cur - next) with 0 by lia. simpl. rewrite app_nil_r. reflexivity.
  - replace (S cur - cur) with 1 by lia. reflexivity.
  - replace next with cur by lia.
    replace (S cur - cur) with 1 by lia. reflexivity.
Qed.

(** The check [currentOffset == commandName.size()] of line 86. *)
Lemma size_check commandName st :
  scan_inv commandName st ->
  nth_error commandName (currentOffset st) = None
  <-> currentOffset st = size commandName.
Proof.
  intros [Ho _ _]. rewrite nth_error_None. unfold size in *. lia.
Qed.

Lemma Subsequence_tail {A} (x : A) s l :
  Subsequence (x :: s) l -> Subsequence s l.
Proof.
  induction l as [|y l IH]; intros H; inversion H; subst.
  - apply Subsequence_skip; assumption.
  - apply Subsequence_skip, IH; assumption.
Qed.

Lemma Subsequence_head_In {A} (x : A) s l :
  Subsequence (x :: s) l -> In x l.
Proof.
  induction l as [|y l IH]; intros H; inversion H; subst.
  - left; reflexivity.
  - right; apply IH; assumption.
Qed.

Lemma Subsequence_cons_neq {A} (x y : A) s l :
  x <> y -> (Subsequence (x :: s) (y :: l) <-> Subsequence (x :: s) l).
Proof.
  intros Hxy; split; intros H.
  - inversion H; subst; [contradiction|assumption].
  - apply Subsequence_skip; assumption.
Qed.

Lemma subsequenceb_spec (l : hstring) : forall s,
  subsequenceb s l = true <-> Subsequence s l.
Proof.
  induction l as [|y l IH]; intros [|x s]; simpl.
  - split; [constructor|reflexivity].
  - split; [discriminate|inversion 1].
  - split; [constructor|reflexivity].
  - destruct (Z.eqb_spec x y) as [->|Hxy]; rewrite IH.
    + split; [apply Subsequence_take|].
      intros H; inversion H; subst; [assumption|].
      eapply Subsequence_tail; eassumption.
    + symmetry. apply Subsequence_cons_neq; assumption.
Qed.

Section SegmenterCorrect.

Variable towlower : wchar -> wchar.

Lemma scan_name_eq commandName lowerCaseSearchChar st :
  scan_name towlower commandName lowerCaseSearchChar st =
  match nth_error commandName (currentOffset st) with
  | None => Return [make_HighlightedTextSegment commandName false]
  | Some c =>
      if (towlower c =? lowerCaseSearchChar)%Z
      then Break (scan_char commandName true st)
      else scan_name towlower commandName lowerCaseSearchChar
             (scan_char commandName false st)
  end.
Proof.
  funelim (scan_name towlower commandName lowerCaseSearchChar st);
    try match goal with H : nth_error _ _ = _ |- _ => rewrite H end;
    try match goal with H : (_ =? _)%Z = _ |- _ => rewrite H end;
    reflexivity.
Qed.

(** The loop for one filter character stops behind the first character
    at or after the cursor that matches it, or returns the whole name
    when there is none. *)
Lemma scan_name_spec [commandName] lc [st] :
  scan_inv commandName st ->
  match scan_name towlower commandName lc st with
  | Return result =>
      result = [make_HighlightedTextSegment commandName false] /\
      (forall j c', currentOffset st <= j ->
                    nth_error commandName j = Some c' -> towlower c' <> lc)
  | Break st' =>
      scan_inv commandName st' /\
      isProcessingMatchedSegment st' = true /\
      exists i c,
        currentOffset st <= i /\
        nth_error commandName i = Some c /\
        towlower c = lc /\
        (forall j c', currentOffset st <= j < i ->
                      nth_error commandName j = Some c' -> towlower c' <> lc) /\
        currentOffset st' = S i /\
        marks st' = marks st ++ [i]
  end.
Proof.
  remember (size commandName - currentOffset st) as n eqn:Hn.
  revert st Hn. induction n as [n IH] using lt_wf_ind. intros st Hn Hinv.
  rewrite scan_name_eq.
  destruct (nth_error commandName (currentOffset st)) as [c|] eqn:Hc.
  - assert (Hlt : currentOffset st < size commandName)
      by (apply nth_error_Some; congruence).
    destruct (Z.eqb_spec (towlower c) lc) as [E|NE].
    + destruct (scan_char_spec true Hinv Hlt) as (I & C & P & M).
      split; [assumption|]. split; [assumption|].
      exists (currentOffset st), c. repeat split; try assumption; try lia.
    + destruct (scan_char_spec false Hinv Hlt) as (I & C & P & M).
      assert (Hdec : size commandName
                     - currentOffset (scan_char commandName false st) < n) by lia.
      specialize (IH _ Hdec _ eq_refl I).
      rewrite C, M, app_nil_r in IH.
      destruct (scan_name towlower commandName lc (scan_char commandName false st))
        as [r|st'].
      * destruct IH as [-> Hno]. split; [reflexivity|].
        intros j c' Hj Hc'. destruct (Nat.eq_dec j (currentOffset st)) as [->|Hne].
        -- congruence.
        -- apply (Hno j); [lia|assumption].
      * destruct IH as (I' & P' & i & c0 & Hi & Hci & Hl & Hb & Hcur & Hm).
        split; [assumption|]. split; [assumption|].
        exists i, c0. repeat split; try assumption; try lia.
        intros j c' Hj Hc'. destruct (Nat.eq_dec j (currentOffset st)) as [->|Hne].
        -- congruence.
        -- apply (Hb j); [lia|assumption].
  - split; [reflexivity|]. intros j c' Hj Hc'.
    apply nth_error_None in Hc.
    assert (j < length commandName) by (apply nth_error_Some; congruence).
    lia.
Qed.

Lemma no_match_not_Subsequence (name : hstring) cur x s :
  (forall j c', cur <= j -> nth_error name j = Some c' -> towlower c' <> x) ->
  ~ Subsequence (x :: s) (map towlower (skipn cur name)).
Proof.
  intros Hno Hs. apply Subsequence_head_In in Hs.
  apply in_map_iff in Hs as (c & Hc & Hin).
  apply In_nth_error in Hin as [k Hk]. rewrite nth_error_skipn in Hk.
  apply (Hno (cur + k) c); [lia|assumption|assumption].
Qed.

(** Matching a character at its first occurrence loses nothing. *)
Lemma first_match_Subsequence [name : hstring] [x] s d : forall cur [i c],
  i = cur + d ->
  nth_error name i = Some c ->
  towlower c = x ->
  (forall j c', cur <= j < i -> nth_error name j = Some c' -> towlower c' <> x) ->
  Subsequence (x :: s) (map towlower (skipn cur name)) <->
  Subsequence s (map towlower (skipn (S i) name)).
Proof.
  induction d as [|d IH]; intros cur i c Hi Hc Hx Hb.
  - rewrite Nat.add_0_r in Hi; subst i.
    rewrite (skipn_nth_error _ _ Hc). simpl map. rewrite Hx. split.
    + intros Hs. inversion Hs; subst; [assumption|].
      eapply Subsequence_tail; eassumption.
    + apply Subsequence_take.
  - assert (Hc0 : exists c0, nth_error name cur = Some c0).
    { destruct (nth_error name cur) eqn:E; [eauto|].
      apply nth_error_None in E.
      assert (i < length name) by (apply nth_error_Some; congruence). lia. }
    destruct Hc0 as [c0 Hc0].
    rewrite (skipn_nth_error _ _ Hc0). simpl map.
    rewrite Subsequence_cons_neq.
    + apply (IH (S cur) i c); try assumption; [lia|].
      intros j c' Hj. apply Hb; lia.
    + intros E. apply (Hb cur c0); [lia|assumption|auto].
Qed.

(** The loop over the filter is the greedy assignment, and it returns
    early exactly when the filter is not a subsequence of what is left of
    the name. *)
Lemma scan_filter_spec [commandName] filter : forall [st],
  scan_inv commandName st ->
  match scan_filter towlower commandName filter st with
  | Return result =>
      result = [make_HighlightedTextSegment commandName false] /\
      filter <> [] /\
      ~ Subsequence (map towlower filter)
          (map towlower (skipn (currentOffset st) commandName))
  | Break st' =>
      scan_inv commandName st' /\
      Subsequence (map towlower filter)
        (map towlower (skipn (currentOffset st) commandName)) /\
      exists offsets,
        GreedyAssignment towlower commandName (currentOffset st) filter offsets /\
        marks st' = marks st ++ offsets
  end.
Proof.
  induction filter as [|searchChar filter IH]; intros st Hinv; simpl.
  - split; [assumption|]. split; [constructor|].
    exists []. split; [constructor|]. rewrite app_nil_r; reflexivity.
  - pose proof (scan_name_spec (towlower searchChar) Hinv) as H.
    destruct (scan_name towlower commandName (towlower searchChar) st)
      as [r|st1].
    + destruct H as [-> Hno]. split; [reflexivity|]. split; [discriminate|].
      apply no_match_not_Subsequence; assumption.
    + destruct H as (I1 & P1 & i & c & Hi & Hc & Hl & Hb & Hcur & Hm).
      specialize (IH st1 I1). rewrite Hcur in IH.
      assert (Hd : i = currentOffset st + (i - currentOffset st)) by lia.
      pose proof (first_match_Subsequence (map towlower filter)
                    (i - currentOffset st) (currentOffset st)
                    Hd Hc Hl Hb) as Hstep.
      destruct (scan_filter towlower commandName filter st1) as [r|st2].
      * destruct IH as (-> & _ & Hns). split; [reflexivity|].
        split; [discriminate|]. rewrite Hstep. assumption.
      * destruct IH as (I2 & Hs & offsets & G & M).
        split; [assumption|]. split; [apply Hstep; assumption|].
        exists (i :: offsets). split.
        -- econstructor; eassumption.
        -- rewrite M, Hm, <- app_assoc. reflexivity.
Qed.

Lemma conclude_matched_spec [commandName st] :
  scan_inv commandName st ->
  scan_inv commandName (conclude_matched commandName st) /\
  highlighted_offsets 0 (segments (conclude_matched commandName st)) = marks st.
Proof.
  intros Hinv. pose proof (scan_inv_append true Hinv) as Happ.
  destruct Hinv as [Ho Ht Hn]. unfold conclude_matched, marks.
  destruct st as [segs p next cur]; scan_fields. destruct p.
  - destruct (Nat.ltb_spec 0 (cur - next)) as [Hpos|Hz].
    + destruct (Happ Hpos) as (Ht' & Hn' & Hh').
      split; [constructor; scan_fields; auto; lia|exact Hh'].
    + split; [constructor; assumption|]. scan_fields.
      replace (cur - next) with 0 by lia. simpl. rewrite app_nil_r; reflexivity.
  - split; [constructor; assumption|]. scan_fields.
    rewrite app_nil_r; reflexivity.
Qed.

Lemma conclude_remaining_spec [commandName st] :
  scan_inv commandName st ->
  let result := conclude_remaining commandName st in
  texts result = commandName /\
  Forall (fun s => TextSegment s <> []) result /\
  highlighted_offsets 0 result = highlighted_offsets 0 (segments st).
Proof.
  intros Hinv.
  assert (Hinv' : scan_inv commandName
                    {| segments := segments st;
                       isProcessingMatchedSegment := isProcessingMatchedSegment st;
                       nextOffsetToReport := nextOffsetToReport st;
                       currentOffset := size commandName |})
    by (destruct Hinv; constructor; scan_fields; auto; lia).
  pose proof (scan_inv_append false Hinv') as Happ. scan_fields.
  destruct Hinv as [Ho Ht Hn]. unfold conclude_remaining.
  destruct (Nat.ltb_spec 0 (size commandName - nextOffsetToReport st))
    as [Hpos|Hz]; cbv zeta.
  - destruct (Happ Hpos) as (Ht' & Hn' & Hh'). rewrite app_nil_r in Hh'.
    split; [|split]; try assumption. rewrite Ht'. apply firstn_all.
  - split; [|split]; try assumption; [|reflexivity].
    rewrite Ht. apply firstn_all2. unfold size in *; lia.
Qed.

(** The two ways the segmenter ends. *)
Lemma _computeHighlightedName_cases commandName filter :
  let result := _computeHighlightedName towlower commandName filter in
  (result = [make_HighlightedTextSegment commandName false] /\
   filter <> [] /\
   ~ Subsequence (map towlower filter) (map towlower commandName))
  \/
  (texts result = commandName /\
   Forall (fun s => TextSegment s <> []) result /\
   Subsequence (map towlower filter) (map towlower commandName) /\
   GreedyAssignment towlower commandName 0 filter
     (highlighted_offsets 0 result)).
Proof.
  unfold _computeHighlightedName.
  set (st := {| segments := []; isProcessingMatchedSegment := false;
                nextOffsetToReport := 0; currentOffset := 0 |}).
  assert (Hinv : scan_inv commandName st)
    by (constructor; simpl; [lia|reflexivity|constructor]).
  pose proof (scan_filter_spec filter Hinv) as H.
  destruct (scan_filter towlower commandName filter st) as [r|st'].
  - left. exact H.
  - right. destruct H as (I & Hs & offsets & G & M).
    destruct (conclude_matched_spec I) as (I' & Hm).
    destruct (conclude_remaining_spec I') as (Ht & Hn & Hh).
    split; [assumption|]. split; [assumption|]. split; [exact Hs|].
    rewrite Hh, Hm, M. exact G.
Qed.

End SegmenterCorrect.

Lemma GreedyAssignment_increasing [towlower name cursor filter offsets] :
  GreedyAssignment towlower name cursor filter offsets ->
  Forall (fun i => cursor <= i) offsets /\ StronglySorted lt offsets.
Proof.
  induction 1 as [|cursor searchChar filter i c offsets Hi Hc Hl Hb G [IHle IHs]].
  - split; constructor.
  - split; constructor; try assumption.
    eapply Forall_impl; [|exact IHle]. simpl; intros; lia.
Qed.

Lemma texts_computeHighlightedName towlower name filter :
  texts (_computeHighlightedName towlower name filter) = name.
Proof.
  destruct (_computeHighlightedName_cases towlower name filter)
    as [(-> & _ & _)|(Ht & _)].
  - simpl. apply app_nil_r.
  - exact Ht.
Qed.

(** *** The claims on the segmenter *)

(** C1, lossless partition: for every name and every filter, the texts of
    the segments the segmenter returns, concatenated in order, are the
    name. *)
Theorem lossless_partition (towlower : wchar -> wchar) (name filter : hstring) :
  concat (map TextSegment (_computeHighlightedName towlower name filter)) = name.
Proof. apply texts_computeHighlightedName. Qed.

(** C2, no-match canonical form: when the lowercased filter is not a
    subsequence of the lowercased name, the segmenter returns exactly one
    segment, the whole name, not highlighted. *)
Theorem no_match_canonical_form (towlower : wchar -> wchar) (name filter : hstring) :
  ~ Subsequence (map towlower filter) (map towlower name) ->
  _computeHighlightedName towlower name filter
  = [make_HighlightedTextSegment name false].
Proof.
  intros Hns.
  destruct (_computeHighlightedName_cases towlower name filter)
    as [(E & _ & _)|(_ & _ & Hs & _)].
  - exact E.
  - contradiction.
Qed.

Lemma no_match_canonical_form_witness :
  _computeHighlightedName towlower_C (L "ab") (L "ba")
  = [make_HighlightedTextSegment (L "ab") false].
Proof.
  apply (no_match_canonical_form towlower_C (L "ab") (L "ba")).
  rewrite <- subsequenceb_spec. vm_compute. discriminate.
Defined.

(** C3, greedy subsequence property: when the result of the segmenter has
    a highlighted segment, the offsets of the highlighted characters are
    the greedy left-to-right assignment of the filter to the name (each
    filter character at the first character at or after the cursor with
    the same lowercase form), they increase strictly, and the lowercased
    filter is a subsequence of the lowercased name. *)
Theorem greedy_subsequence_property (towlower : wchar -> wchar)
    (name filter : hstring) :
  existsb IsHighlighted (_computeHighlightedName towlower name filter) = true ->
  let highlighted :=
    highlighted_offsets 0 (_computeHighlightedName towlower name filter) in
  GreedyAssignment towlower name 0 filter highlighted /\
  StronglySorted lt highlighted /\
  Subsequence (map towlower filter) (map towlower name).
Proof.
  intros Hex.
  destruct (_computeHighlightedName_cases towlower name filter)
    as [(E & _ & _)|(_ & _ & Hs & G)].
  - rewrite E in Hex. discriminate Hex.
  - split; [exact G|]. split; [|exact Hs].
    apply (GreedyAssignment_increasing G).
Qed.

Lemma greedy_subsequence_property_witness :
  GreedyAssignment towlower_C (L "close all tabs after this") 0 (L "clts")
    [0; 1; 10; 13].
Proof.
  apply (greedy_subsequence_property towlower_C
           (L "close all tabs after this") (L "clts")).
  vm_compute. reflexivity.
Defined.

(** C10, the empty name: for every filter that is not empty, the segmenter
    returns for the empty name exactly one segment, empty and not
    highlighted; and a segmentation with an empty segment is that of the
    empty name and of a filter that is not empty. *)
Theorem empty_name_edge_case (towlower : wchar -> wchar) :
  (forall filter : hstring,
      filter <> [] ->
      _computeHighlightedName towlower [] filter
      = [make_HighlightedTextSegment [] false]) /\
  (forall (name filter : hstring) (s : HighlightedTextSegment),
      In s (_computeHighlightedName towlower name filter) ->
      TextSegment s = [] ->
      name = [] /\ filter <> []).
Proof.
  split.
  - intros [|searchChar filter] Hne; [contradiction|].
    unfold _computeHighlightedName. simpl. rewrite scan_name_eq. reflexivity.
  - intros name filter s Hin Hs.
    destruct (_computeHighlightedName_cases towlower name filter)
      as [(E & Hne & _)|(_ & Hn & _)].
    + rewrite E in Hin. destruct Hin as [<-|[]]. split; assumption.
    + rewrite Forall_forall in Hn. destruct (Hn s Hin Hs).
Qed.

Lemma empty_name_edge_case_witness :
  _computeHighlightedName towlower_C [] (L "clts")
  = [make_HighlightedTextSegment [] false].
Proof.
  apply (proj1 (empty_name_edge_case towlower_C)). discriminate.
Defined.

(** C9 as the specification states it fails: the output for the name
    "close all tabs after this" and the filter "clts" does not begin with
    "cl", "ose ", "t", "abs ". *)
Lemma stated_example_fails :
  ~ exists further,
      further <> [] /\
      _computeHighlightedName towlower_C (L "close all tabs after this") (L "clts")
      = [make_HighlightedTextSegment (L "cl") true;
         make_HighlightedTextSegment (L "ose ") false;
         make_HighlightedTextSegment (L "t") true;
         make_HighlightedTextSegment (L "abs ") false] ++ further.
Proof.
  intros (further & _ & H). vm_compute in H. discriminate H.
Qed.

(** C9, amended: for the name "close all tabs after this" and the filter
    "clts" the output of the segmenter begins with "cl" highlighted,
    "ose all " not highlighted, "t" highlighted, "ab" not highlighted, and
    is followed by further segments: "s" highlighted and " after this" not
    highlighted. *)
Theorem concrete_example :
  exists further,
    further <> [] /\
    _computeHighlightedName towlower_C (L "close all tabs after this") (L "clts")
    = [make_HighlightedTextSegment (L "cl") true;
       make_HighlightedTextSegment (L "ose all ") false;
       make_HighlightedTextSegment (L "t") true;
       make_HighlightedTextSegment (L "ab") false] ++ further /\
    further = [make_HighlightedTextSegment (L "s") true;
               make_HighlightedTextSegment (L " after this") false].
Proof.
  eexists. split; [|split; [|reflexivity]].
  - discriminate.
  - vm_compute. reflexivity.
Qed.

(** ** The weigher *)

Section WeigherCorrect.

Local Open Scope Z_scope.

Lemma wrap_int32_small z : 0 <= z <= INT_MAX -> wrap_int32 z = z.
Proof.
  unfold wrap_int32, INT_MAX.
  change (2 ^ 31) with 2147483648. change (2 ^ 32) with 4294967296.
  intros H. rewrite Z.mod_small; lia.
Qed.

Lemma nth_pred_length_last (l : hstring) d :
  nth (length l - 1) l d = last l d.
Proof.
  induction l as [|x l IH]; [reflexivity|].
  destruct l as [|y l]; [reflexivity|].
  change (last (x :: y :: l) d) with (last (y :: l) d).
  rewrite <- IH. simpl length.
  rewrite !Nat.sub_succ, !Nat.sub_0_r. reflexivity.
Qed.

(** The flag the loop computes for the next segment. *)
Lemma next_is_word_start (s : HighlightedTextSegment) :
  (0 <? size32 (TextSegment s))
  && (char_at (TextSegment s) (size32 (TextSegment s) - 1) =? space)
  = word_start_after (Some s).
Proof.
  unfold word_start_after, char_at, size32, size.
  destruct (TextSegment s) as [|c text] eqn:E; [reflexivity|].
  replace (0 <? Z.of_nat (length (c :: text))) with true
    by (symmetry; apply Z.ltb_lt; simpl length; lia).
  replace (Z.to_nat (Z.of_nat (length (c :: text)) - 1))
    with (length (c :: text) - 1)%nat by lia.
  rewrite nth_pred_length_last. reflexivity.
Qed.

Lemma segment_points_nonneg b s : 0 <= segment_points b s.
Proof.
  unfold segment_points. destruct (IsHighlighted s); [|lia].
  cbv zeta. destruct (Z.leb_spec (Z.of_nat (length (TextSegment s))) 1);
    destruct b; lia.
Qed.

Lemma reference_weight_from_nonneg segs : forall previous,
  0 <= reference_weight_from previous segs.
Proof.
  induction segs as [|s segs IH]; intros previous; simpl; [lia|].
  pose proof (segment_points_nonneg (word_start_after previous) s).
  specialize (IH (Some s)). lia.
Qed.

Lemma wrap_int32_add_l a b : wrap_int32 (wrap_int32 a + b) = wrap_int32 (a + b).
Proof.
  unfold wrap_int32. f_equal.
  replace ((a + 2 ^ 31) mod 2 ^ 32 - 2 ^ 31 + b + 2 ^ 31)
    with ((a + 2 ^ 31) mod 2 ^ 32 + b) by lia.
  rewrite Z.add_mod_idemp_l by (change (2 ^ 32) with 4294967296; lia).
  f_equal. lia.
Qed.

Lemma wrap_int32_add_uint32 a b : wrap_int32 (a + wrap_uint32 b) = wrap_int32 (a + b).
Proof.
  unfold wrap_int32, wrap_uint32. f_equal.
  replace (a + b mod 2 ^ 32 + 2 ^ 31) with (b mod 2 ^ 32 + (a + 2 ^ 31)) by lia.
  rewrite Z.add_mod_idemp_l by (change (2 ^ 32) with 4294967296; lia).
  f_equal. lia.
Qed.

(** One turn of the loop adds the points of the segment, in the
    arithmetic of [int]. *)
Lemma weigh_segment_spec result previous s :
  weigh_segment (wrap_int32 result, word_start_after previous) s
  = (wrap_int32 (result + segment_points (word_start_after previous) s),
     word_start_after (Some s)).
Proof.
  unfold weigh_segment. rewrite next_is_word_start.
  f_equal. unfold segment_points, size32, size.
  destruct (IsHighlighted s); [|rewrite Z.add_0_r; reflexivity]. cbv zeta.
  set (len := Z.of_nat (length (TextSegment s))).
  destruct (len <=? 1); destruct (word_start_after previous).
  - rewrite (wrap_int32_add_l (wrap_int32 result + len)), <- Z.add_assoc.
    apply wrap_int32_add_l.
  - rewrite Z.add_0_r. apply wrap_int32_add_l.
  - rewrite (wrap_int32_add_l (wrap_int32 result + _)), <- Z.add_assoc.
    rewrite wrap_int32_add_l.
    rewrite (Z.add_comm (wrap_uint32 _) 1), Z.add_assoc.
    rewrite wrap_int32_add_uint32. f_equal. lia.
  - rewrite Z.add_0_r, wrap_int32_add_l. apply wrap_int32_add_uint32.
Qed.

Lemma fold_weigh_segment_spec segs : forall result previous,
  fst (fold_left weigh_segment segs
         (wrap_int32 result, word_start_after previous))
  = wrap_int32 (result + reference_weight_from previous segs).
Proof.
  induction segs as [|s segs IH]; intros result previous;
    cbn [fold_left reference_weight_from fst].
  - rewrite Z.add_0_r. reflexivity.
  - rewrite weigh_segment_spec, IH. f_equal. lia.
Qed.

Lemma _computeWeight_int32 segs :
  _computeWeight segs = wrap_int32 (reference_weight segs).
Proof.
  unfold _computeWeight, reference_weight.
  apply (fold_weigh_segment_spec segs 0 None).
Qed.

Lemma _computeWeight_in_range segs :
  reference_weight segs <= INT_MAX ->
  _computeWeight segs = reference_weight segs.
Proof.
  intros H. rewrite _computeWeight_int32. apply wrap_int32_small.
  split; [apply reference_weight_from_nonneg|assumption].
Qed.


Lemma reference_weight_from_zero [segs] : forall previous,
  Forall highlighted_nonempty segs ->
  reference_weight_from previous segs = 0 <->
  Forall (fun s => IsHighlighted s = false) segs.
Proof.
  induction segs as [|s segs IH]; intros previous Hne;
    cbn [reference_weight_from].
  - split; [constructor|reflexivity].
  - inversion Hne as [|? ? Hs Hne']; subst. specialize (IH (Some s) Hne').
    pose proof (reference_weight_from_nonneg segs (Some s)) as Hpos.
    pose proof (segment_points_nonneg (word_start_after previous) s) as Hpts.
    assert (Hiff : segment_points (word_start_after previous) s = 0
                   <-> IsHighlighted s = false).
    { unfold segment_points. unfold highlighted_nonempty in Hs.
      destruct (IsHighlighted s); [|split; reflexivity]. cbv zeta.
      destruct (TextSegment s) as [|c text]; [destruct (Hs eq_refl eq_refl)|].
      split; [|discriminate].
      destruct (Z.leb_spec (Z.of_nat (length (c :: text))) 1);
        destruct (word_start_after previous); simpl length in *; lia. }
    split.
    + intros H. constructor; [apply Hiff; lia|apply IH; lia].
    + intros H. inversion H; subst.
      assert (segment_points (word_start_after previous) s = 0) by (apply Hiff; assumption).
      assert (reference_weight_from (Some s) segs = 0) by (apply IH; assumption).
      lia.
Qed.

End WeigherCorrect.

(** *** The claims on the weigher *)









(** ** The view model *)

Section ViewModelCorrect.

Variable towlower : wchar -> wchar.

Lemma _computeWeight_no_filter (name : hstring) :
  _computeWeight (_computeHighlightedName towlower name []) = 0%Z.
Proof.
  unfold _computeHighlightedName, conclude_remaining, conclude_matched.
  cbn [scan_filter isProcessingMatchedSegment nextOffsetToReport segments].
  destruct (0 <? size name - 0); reflexivity.
Qed.

Lemma consistent_construct (name : hstring) :
  consistent towlower (construct towlower name).
Proof.
  unfold consistent, construct; simpl. split; [reflexivity|].
  symmetry. apply _computeWeight_no_filter.
Qed.

Lemma consistent_recompute (this : FilteredCommand) :
  consistent towlower (recompute towlower this).
Proof. unfold consistent, recompute; simpl. split; reflexivity. Qed.

Lemma consistent_handle (this : FilteredCommand) (e : event) :
  consistent towlower this -> consistent towlower (handle towlower this e).
Proof.
  intros Hc. destruct e as [filter|name|PropertyName]; simpl.
  - unfold UpdateFilter.
    destruct (hstring_eq_dec filter (_Filter this)); [assumption|].
    apply consistent_recompute.
  - unfold on_Command_PropertyChanged.
    destruct (hstring_eq_dec (L "Name") (L "Name")) as [_|Hne];
      [|destruct (Hne eq_refl)].
    apply consistent_recompute.
  - unfold on_Command_PropertyChanged.
    destruct (hstring_eq_dec PropertyName (L "Name")); [|assumption].
    apply consistent_recompute.
Qed.

End ViewModelCorrect.

(** C7, consistency of the derived fields: after the construction and
    after every completed call of [UpdateFilter] and every completed
    notification of a change of the name, [_HighlightedName] is the
    segmentation of the current name for the current filter and [_Weight]
    is the weight of [_HighlightedName]. *)
Theorem derived_fields_consistent (towlower : wchar -> wchar)
    (command_Name : hstring) (events : list event) :
  consistent towlower (history towlower command_Name events).
Proof.
  unfold history.
  generalize (consistent_construct towlower command_Name).
  generalize (construct towlower command_Name).
  induction events as [|e events IH]; intros this Hc; simpl.
  - exact Hc.
  - apply IH, consistent_handle, Hc.
Qed.

(** C8, [UpdateFilter] with the current filter: the call leaves every
    field as it is and computes nothing (no [HighlightedText] is made), so
    a second call with the string of the call just before changes
    nothing. *)
Theorem UpdateFilter_same_filter (towlower : wchar -> wchar)
    (this : FilteredCommand) :
  UpdateFilter towlower (_Filter this) this = this /\
  (forall filter,
      UpdateFilter towlower filter (UpdateFilter towlower filter this)
      = UpdateFilter towlower filter this).
Proof.
  assert (Hsame : forall this', UpdateFilter towlower (_Filter this') this' = this').
  { intros this'. unfold UpdateFilter.
    destruct (hstring_eq_dec (_Filter this') (_Filter this')) as [_|Hne];
      [reflexivity|destruct (Hne eq_refl)]. }
  split; [apply Hsame|].
  intros filter.
  assert (Hf : _Filter (UpdateFilter towlower filter this) = filter).
  { unfold UpdateFilter.
    destruct (hstring_eq_dec filter (_Filter this)) as [->|_]; reflexivity. }
  rewrite <- Hf at 1. apply Hsame.
Qed.

(** ** The ordering *)

Section CompareCorrect.

Local Open Scope Z_scope.

Lemma wstring_view_compare_cons x a y b :
  wstring_view_compare (x :: a) (y :: b)
  = if x <? y then -1 else if y <? x then 1 else wstring_view_compare a b.
Proof.
  unfold wstring_view_compare, size. simpl length. simpl Nat.min.
  cbn [traits_compare].
  destruct (x <? y); [reflexivity|]. destruct (y <? x); reflexivity.
Qed.

Lemma wstring_view_compare_lt a : forall b,
  wstring_view_compare a b < 0 <-> lex_lt a b.
Proof.
  induction a as [|x a IH]; intros [|y b].
  - split; [discriminate|inversion 1].
  - split; [constructor|reflexivity].
  - split; [discriminate|inversion 1].
  - rewrite wstring_view_compare_cons.
    destruct (Z.ltb_spec x y) as [Hxy|Hxy].
    + split; [intros _; constructor; assumption|reflexivity].
    + destruct (Z.ltb_spec y x) as [Hyx|Hyx].
      * split; [discriminate|]. inversion 1; subst; lia.
      * assert (x = y) by lia; subst y. rewrite IH. split.
        -- apply lex_lt_tail.
        -- inversion 1; subst; [lia|assumption].
Qed.

Lemma wstring_view_compare_flip a : forall b,
  wstring_view_compare b a = - wstring_view_compare a b.
Proof.
  induction a as [|x a IH]; intros [|y b]; try reflexivity.
  rewrite !wstring_view_compare_cons.
  destruct (Z.ltb_spec x y); destruct (Z.ltb_spec y x);
    try reflexivity; try lia. apply IH.
Qed.

Lemma wstring_view_compare_eq a : forall b,
  wstring_view_compare a b = 0 -> a = b.
Proof.
  induction a as [|x a IH]; intros [|y b]; try discriminate; [reflexivity|].
  rewrite wstring_view_compare_cons.
  destruct (Z.ltb_spec x y); [discriminate|].
  destruct (Z.ltb_spec y x); [discriminate|].
  intros Hab. f_equal; [lia|apply IH, Hab].
Qed.

End CompareCorrect.

(** C6, the ordering and its tie-break: [Compare a b] is true exactly
    when the weight of [a] is greater than that of [b], or the weights are
    equal and the name of [a] precedes that of [b] in the lexicographic
    order by code unit; and of two commands that differ in weight or in
    name exactly one is before the other. *)
Theorem Compare_definition (a b : FilteredCommand) :
  (Compare a b = 1%Z <->
   (_Weight a > _Weight b)%Z \/
   (_Weight a = _Weight b /\ lex_lt (_Command_Name a) (_Command_Name b))) /\
  (Compare a b = 1%Z \/ Compare a b = 0%Z) /\
  ((_Weight a, _Command_Name a) <> (_Weight b, _Command_Name b) ->
   (Compare a b = 1%Z /\ Compare b a = 0%Z) \/
   (Compare a b = 0%Z /\ Compare b a = 1%Z)).
Proof.
  unfold Compare.
  pose proof (wstring_view_compare_lt (_Command_Name a) (_Command_Name b)) as Hlt.
  pose proof (wstring_view_compare_flip (_Command_Name a) (_Command_Name b)) as Hflip.
  pose proof (@wstring_view_compare_eq (_Command_Name a) (_Command_Name b)) as Heq.
  destruct (Z.eqb_spec (_Weight a) (_Weight b)) as [Hw|Hw].
  - rewrite <- Hw, Z.eqb_refl, Hflip.
    destruct (Z.ltb_spec (wstring_view_compare (_Command_Name a) (_Command_Name b)) 0)
      as [Hneg|Hpos]; simpl Z.b2z.
    + split; [|split].
      * split; [intros _; right; split; [reflexivity|apply Hlt; assumption]|reflexivity].
      * left; reflexivity.
      * intros _. left. split; [reflexivity|].
        destruct (Z.ltb_spec (- wstring_view_compare (_Command_Name a) (_Command_Name b)) 0);
          [lia|reflexivity].
    + split; [|split].
      * split; [discriminate|]. intros [Hgt|[_ Hl]]; [lia|]. apply Hlt in Hl. lia.
      * right; reflexivity.
      * intros Hne. right. split; [reflexivity|].
        destruct (Z.ltb_spec (- wstring_view_compare (_Command_Name a) (_Command_Name b)) 0);
          [reflexivity|].
        exfalso. apply Hne. f_equal. apply Heq. lia.
  - destruct (Z.eqb_spec (_Weight b) (_Weight a)) as [Hw'|_]; [congruence|].
    unfold Z.gtb. rewrite (Z.compare_antisym (_Weight a) (_Weight b)).
    destruct (Z.compare_spec (_Weight a) (_Weight b)) as [E|Hl|Hg]; simpl.
    + contradiction.
    + split; [|split].
      * split; [discriminate|]. intros [Hgt|[E _]]; [lia|contradiction].
      * right; reflexivity.
      * intros _. right. split; reflexivity.
    + split; [|split].
      * split; [intros _; left; lia|reflexivity].
      * left; reflexivity.
      * intros _. left. split; reflexivity.
Qed.

Lemma Compare_definition_witness :
  let A := {| _Command_Name := L "Close Tab"; _Filter := L "c";
              _HighlightedName := []; _Weight := 5; highlightedNamesMade := 0 |} in
  let B := {| _Command_Name := L "Close Pane"; _Filter := L "c";
              _HighlightedName := []; _Weight := 5; highlightedNamesMade := 0 |} in
  (Compare B A = 1%Z /\ Compare A B = 0%Z) \/
  (Compare B A = 0%Z /\ Compare A B = 1%Z).
Proof.
  intros A B. apply (Compare_definition B A). vm_compute. discriminate.
Defined.

(** * Further properties *)

(** ** The segmenter *)

Lemma currentOffset_scan_char commandName m st :
  currentOffset (scan_char commandName m st) = S (currentOffset st).
Proof.
  unfold scan_char, conclude_region, advance.
  destruct (eqb _ _); [reflexivity|].
  destruct (0 <? _); reflexivity.
Qed.

Section Preservation.

Variable towlower : wchar -> wchar.
Variable commandName : hstring.

(** A property of the local variables that every scanned character
    preserves. *)
Variable P : scan -> Prop.
Hypothesis P_scan_char : forall m st, P st -> P (scan_char commandName m st).

Lemma scan_name_preserves lc st :
  P st ->
  match scan_name towlower commandName lc st with
  | Return result => result = [make_HighlightedTextSegment commandName false]
  | Break st' => P st'
  end.
Proof.
  remember (size commandName - currentOffset st) as n eqn:Hn.
  revert st Hn. induction n as [n IH] using lt_wf_ind. intros st Hn HP.
  rewrite scan_name_eq.
  destruct (nth_error commandName (currentOffset st)) as [c|] eqn:Hc;
    [|reflexivity].
  assert (Hlt : currentOffset st < size commandName)
    by (apply nth_error_Some; congruence).
  destruct (towlower c =? lc)%Z.
  - apply P_scan_char, HP.
  - apply (IH (size commandName - currentOffset (scan_char commandName false st))).
    + rewrite currentOffset_scan_char. lia.
    + reflexivity.
    + apply P_scan_char, HP.
Qed.

Lemma scan_filter_preserves filter : forall st,
  P st ->
  match scan_filter towlower commandName filter st with
  | Return result => result = [make_HighlightedTextSegment commandName false]
  | Break st' => P st'
  end.
Proof.
  induction filter as [|searchChar filter IH]; intros st HP; simpl.
  - exact HP.
  - pose proof (scan_name_preserves (towlower searchChar) st HP) as H.
    destruct (scan_name towlower commandName (towlower searchChar) st)
      as [r|st1]; [exact H|].
    apply IH, H.
Qed.

End Preservation.

Lemma alternating_snoc segs s :
  alternating segs = true ->
  (segs <> [] -> last (map IsHighlighted segs) false = negb (IsHighlighted s)) ->
  alternating (segs ++ [s]) = true.
Proof.
  induction segs as [|a segs IH]; [reflexivity|].
  destruct segs as [|b segs]; intros Halt Hlast.
  - specialize (Hlast ltac:(discriminate)). simpl in Hlast. simpl.
    rewrite Hlast. destruct (IsHighlighted s); reflexivity.
  - change (alternating (a :: b :: segs))
      with (negb (eqb (IsHighlighted a) (IsHighlighted b))
            && alternating (b :: segs)) in Halt.
    apply andb_true_iff in Halt as [H1 H2].
    change (alternating ((a :: b :: segs) ++ [s]))
      with (negb (eqb (IsHighlighted a) (IsHighlighted b))
            && alternating ((b :: segs) ++ [s])).
    rewrite H1. apply IH; [exact H2|].
    intros _. apply Hlast. discriminate.
Qed.

Lemma last_flag_snoc segs s d :
  last (map IsHighlighted (segs ++ [s])) d = IsHighlighted s.
Proof. rewrite map_app. apply last_last. Qed.

Lemma run_inv_scan_char commandName m st :
  run_inv st -> run_inv (scan_char commandName m st).
Proof.
  unfold run_inv, scan_char, conclude_region.
  destruct st as [segs p next cur]; scan_fields. intros [Ha Hl].
  destruct p, m; scan_fields;
    try (split; [exact Ha|intros Hne; destruct (Hl Hne); split; [lia|assumption]]);
    destruct (Nat.ltb_spec 0 (cur - next)) as [Hpos|Hz]; scan_fields.
  - split.
    + apply alternating_snoc; [exact Ha|]. intros Hne. apply (Hl Hne).
    + intros _. split; [lia|]. apply last_flag_snoc.
  - destruct segs as [|a segs]; [split; [reflexivity|intros []; reflexivity]|].
    destruct (Hl ltac:(discriminate)). lia.
  - split.
    + apply alternating_snoc; [exact Ha|]. intros Hne. apply (Hl Hne).
    + intros _. split; [lia|]. apply last_flag_snoc.
  - destruct segs as [|a segs]; [split; [reflexivity|intros []; reflexivity]|].
    destruct (Hl ltac:(discriminate)). lia.
Qed.

Lemma alternating_conclude commandName st :
  run_inv st ->
  alternating (conclude_remaining commandName (conclude_matched commandName st))
  = true.
Proof.
  unfold run_inv, conclude_remaining, conclude_matched.
  destruct st as [segs p next cur]; scan_fields. intros [Ha Hl].
  assert (Hend : forall segs',
             alternating segs' = true ->
             (segs' <> [] -> last (map IsHighlighted segs') false = true) ->
             alternating
               (if 0 <? size commandName - next
                then segs' ++ [make_HighlightedTextSegment
                                 (substr commandName next (size commandName - next))
                                 false]
                else segs') = true).
  { intros segs' Ha' Hl'. destruct (0 <? _); [|exact Ha'].
    apply alternating_snoc; assumption. }
  destruct p.
  - destruct (Nat.ltb_spec 0 (cur - next)) as [Hpos|Hz]; scan_fields.
    + destruct (0 <? size commandName - cur); [|].
      * apply alternating_snoc.
        -- apply alternating_snoc; [exact Ha|]. intros Hne. apply (Hl Hne).
        -- intros _. apply last_flag_snoc.
      * apply alternating_snoc; [exact Ha|]. intros Hne. apply (Hl Hne).
    + apply Hend; [exact Ha|]. intros Hne. destruct (Hl Hne). lia.
  - apply Hend; [exact Ha|]. intros Hne. apply (Hl Hne).
Qed.

Lemma alternating_computeHighlightedName towlower name filter :
  alternating (_computeHighlightedName towlower name filter) = true.
Proof.
  unfold _computeHighlightedName.
  set (st := {| segments := []; isProcessingMatchedSegment := false;
                nextOffsetToReport := 0; currentOffset := 0 |}).
  assert (H0 : run_inv st) by (split; [reflexivity|intros []; reflexivity]).
  pose proof (scan_filter_preserves towlower name run_inv
                (run_inv_scan_char name) filter st H0) as H.
  destruct (scan_filter towlower name filter st) as [r|st'].
  - rewrite H. reflexivity.
  - apply alternating_conclude, H.
Qed.

Lemma alternating_nth segs : forall i a b,
  alternating segs = true ->
  nth_error segs i = Some a ->
  nth_error segs (S i) = Some b ->
  IsHighlighted b = negb (IsHighlighted a).
Proof.
  induction segs as [|x segs IH]; intros i a b Halt Ha Hb; [destruct i; discriminate|].
  destruct segs as [|y segs]; [destruct i; discriminate|].
  change (alternating (x :: y :: segs))
    with (negb (eqb (IsHighlighted x) (IsHighlighted y))
          && alternating (y :: segs)) in Halt.
  apply andb_true_iff in Halt as [H1 H2].
  destruct i as [|i].
  - simpl in Ha, Hb. injection Ha as <-. injection Hb as <-.
    destruct (IsHighlighted x), (IsHighlighted y); try reflexivity; discriminate.
  - apply (IH i a b H2); assumption.
Qed.

Lemma GreedyAssignment_length [towlower name cursor filter offsets] :
  GreedyAssignment towlower name cursor filter offsets ->
  length offsets = length filter.
Proof. induction 1; simpl; congruence. Qed.

Lemma highlighted_offsets_length segs : forall o,
  length (highlighted_offsets o segs)
  = length (texts (List.filter IsHighlighted segs)).
Proof.
  induction segs as [|s segs IH]; intros o; simpl; [reflexivity|].
  rewrite length_app, IH. destruct (IsHighlighted s); simpl.
  - change (texts (s :: List.filter IsHighlighted segs))
      with (TextSegment s ++ texts (List.filter IsHighlighted segs)).
    rewrite length_app, length_seq. reflexivity.
  - reflexivity.
Qed.

Lemma highlighted_length_le segs :
  length (texts (List.filter IsHighlighted segs)) <= length (texts segs).
Proof.
  induction segs as [|s segs IH]; simpl; [lia|].
  change (texts (s :: segs)) with (TextSegment s ++ texts segs).
  rewrite length_app. destruct (IsHighlighted s).
  - change (texts (s :: List.filter IsHighlighted segs))
      with (TextSegment s ++ texts (List.filter IsHighlighted segs)).
    rewrite length_app. lia.
  - lia.
Qed.

Lemma all_highlighted segs :
  Forall (fun s => TextSegment s <> []) segs ->
  length (texts (List.filter IsHighlighted segs)) = length (texts segs) ->
  forallb IsHighlighted segs = true.
Proof.
  induction segs as [|s segs IH]; intros Hne Hlen; [reflexivity|].
  inversion Hne as [|? ? Hs Hne']; subst.
  pose proof (highlighted_length_le segs) as Hle.
  change (texts (s :: segs)) with (TextSegment s ++ texts segs) in Hlen.
  rewrite length_app in Hlen. simpl in *.
  destruct (IsHighlighted s); simpl.
  - apply IH; [assumption|].
    change (texts (s :: List.filter IsHighlighted segs))
      with (TextSegment s ++ texts (List.filter IsHighlighted segs)) in Hlen.
    rewrite length_app in Hlen. lia.
  - destruct (TextSegment s); [contradiction|]. simpl in Hlen. lia.
Qed.

Lemma alternating_all_highlighted segs :
  alternating segs = true -> forallb IsHighlighted segs = true ->
  length segs <= 1.
Proof.
  destruct segs as [|a [|b segs]]; simpl; try lia.
  intros Halt Hall.
  apply andb_true_iff in Hall as [Ha Hall].
  apply andb_true_iff in Hall as [Hb _].
  rewrite Ha, Hb in Halt. discriminate.
Qed.

Lemma no_highlighted_offsets segs : forall o,
  existsb IsHighlighted segs = false -> highlighted_offsets o segs = [].
Proof.
  induction segs as [|s segs IH]; intros o H; simpl in *; [reflexivity|].
  apply orb_false_iff in H as [Hs H]. rewrite Hs, IH by assumption. reflexivity.
Qed.

Lemma Subsequence_length {A} (s l : list A) :
  Subsequence s l -> length s <= length l.
Proof. induction 1; simpl; lia. Qed.

Lemma Subsequence_refl {A} (l : list A) : Subsequence l l.
Proof. induction l; constructor; assumption. Qed.

Lemma scan_filter_lowercase towlower commandName f1 : forall f2 st,
  map towlower f1 = map towlower f2 ->
  scan_filter towlower commandName f1 st
  = scan_filter towlower commandName f2 st.
Proof.
  induction f1 as [|c1 f1 IH]; intros [|c2 f2] st H; try discriminate;
    [reflexivity|].
  simpl in *. injection H as Hc Hf. rewrite Hc.
  destruct (scan_name towlower commandName (towlower c2) st); [reflexivity|].
  apply IH, Hf.
Qed.

Lemma matched_length towlower name filter :
  Subsequence (map towlower filter) (map towlower name) ->
  length (texts (List.filter IsHighlighted
                   (_computeHighlightedName towlower name filter)))
  = length filter.
Proof.
  intros Hs.
  destruct (_computeHighlightedName_cases towlower name filter)
    as [(_ & _ & Hns)|(_ & _ & _ & G)]; [contradiction|].
  rewrite <- (highlighted_offsets_length _ 0). apply (GreedyAssignment_length G).
Qed.

Lemma highlighted_nonempty_computeHighlightedName towlower name filter :
  Forall highlighted_nonempty (_computeHighlightedName towlower name filter).
Proof.
  destruct (_computeHighlightedName_cases towlower name filter)
    as [(E & _ & _)|(_ & Hn & _)].
  - rewrite E. constructor; [discriminate|constructor].
  - eapply Forall_impl; [|exact Hn]. intros s Hs _. exact Hs.
Qed.

(** X1, the empty filter: the segmentation of a name for the empty filter
    is the whole name as one segment that is not highlighted, and no
    segment at all when the name is empty. *)
Theorem empty_filter (towlower : wchar -> wchar) (name : hstring) :
  _computeHighlightedName towlower name []
  = match name with
    | [] => []
    | _ :: _ => [make_HighlightedTextSegment name false]
    end.
Proof.
  unfold _computeHighlightedName, conclude_remaining, conclude_matched, substr.
  cbn [scan_filter isProcessingMatchedSegment nextOffsetToReport segments].
  destruct name as [|c name]; [reflexivity|].
  unfold size. simpl. rewrite firstn_all. reflexivity.
Qed.

(** X2, the case of the filter: two filters with the same lowercase form
    give the same segmentation of every name. *)
Theorem filter_case_insensitive (towlower : wchar -> wchar)
    (name filter1 filter2 : hstring) :
  map towlower filter1 = map towlower filter2 ->
  _computeHighlightedName towlower name filter1
  = _computeHighlightedName towlower name filter2.
Proof.
  intros H. unfold _computeHighlightedName.
  rewrite (scan_filter_lowercase towlower name filter1 filter2 _ H).
  reflexivity.
Qed.

Lemma filter_case_insensitive_witness :
  _computeHighlightedName towlower_C (L "Close Pane") (L "CP")
  = _computeHighlightedName towlower_C (L "Close Pane") (L "cp").
Proof.
  apply (filter_case_insensitive towlower_C (L "Close Pane") (L "CP") (L "cp")).
  vm_compute. reflexivity.
Defined.

(** X3, maximal runs: of two neighbouring segments of a segmentation one is
    highlighted and the other is not. *)
Theorem segments_alternate (towlower : wchar -> wchar) (name filter : hstring)
    (i : nat) (a b : HighlightedTextSegment) :
  nth_error (_computeHighlightedName towlower name filter) i = Some a ->
  nth_error (_computeHighlightedName towlower name filter) (S i) = Some b ->
  IsHighlighted b = negb (IsHighlighted a).
Proof.
  apply alternating_nth, alternating_computeHighlightedName.
Qed.

Lemma segments_alternate_witness :
  IsHighlighted (make_HighlightedTextSegment (L "ose all ") false)
  = negb (IsHighlighted (make_HighlightedTextSegment (L "cl") true)).
Proof.
  apply (segments_alternate towlower_C (L "close all tabs after this")
           (L "clts") 0); vm_compute; reflexivity.
Defined.

(** X4, every filter character is highlighted once: when the lowercased
    filter is a subsequence of the lowercased name, the highlighted segments
    have as many characters in all as the filter. *)
Theorem filter_characters_highlighted_once (towlower : wchar -> wchar)
    (name filter : hstring) :
  Subsequence (map towlower filter) (map towlower name) ->
  length (texts (List.filter IsHighlighted
                   (_computeHighlightedName towlower name filter)))
  = length filter.
Proof. apply matched_length. Qed.

Lemma filter_characters_highlighted_once_witness :
  length (texts (List.filter IsHighlighted
                   (_computeHighlightedName towlower_C
                      (L "close all tabs after this") (L "clts"))))
  = 4.
Proof.
  apply (filter_characters_highlighted_once towlower_C
           (L "close all tabs after this") (L "clts")).
  rewrite <- subsequenceb_spec. vm_compute. reflexivity.
Defined.

(** X5, highlighted if and only if matched: for a filter that is not
    empty, the segmentation has a highlighted segment exactly when the
    lowercased filter is a subsequence of the lowercased name. *)
Theorem highlighted_iff_subsequence (towlower : wchar -> wchar)
    (name filter : hstring) :
  filter <> [] ->
  existsb IsHighlighted (_computeHighlightedName towlower name filter) = true
  <-> Subsequence (map towlower filter) (map towlower name).
Proof.
  intros Hne.
  destruct (_computeHighlightedName_cases towlower name filter)
    as [(E & _ & Hns)|(_ & _ & Hs & G)].
  - rewrite E. split; [discriminate|contradiction].
  - split; [intros _; exact Hs|]. intros _.
    destruct (existsb IsHighlighted (_computeHighlightedName towlower name filter))
      eqn:Hex; [reflexivity|].
    pose proof (GreedyAssignment_length G) as Hlen.
    rewrite (no_highlighted_offsets _ 0 Hex) in Hlen.
    destruct filter; [contradiction|discriminate].
Qed.

Lemma highlighted_iff_subsequence_witness :
  existsb IsHighlighted
    (_computeHighlightedName towlower_C (L "Split Pane") (L "sp")) = true.
Proof.
  apply (highlighted_iff_subsequence towlower_C (L "Split Pane") (L "sp")).
  - discriminate.
  - rewrite <- subsequenceb_spec. vm_compute. reflexivity.
Defined.

(** X6, a filter longer than the name: the segmentation is the whole name
    as one segment that is not highlighted. *)
Theorem filter_longer_than_name (towlower : wchar -> wchar)
    (name filter : hstring) :
  length name < length filter ->
  _computeHighlightedName towlower name filter
  = [make_HighlightedTextSegment name false].
Proof.
  intros Hlen.
  destruct (_computeHighlightedName_cases towlower name filter)
    as [(E & _ & _)|(_ & _ & Hs & _)]; [exact E|].
  apply Subsequence_length in Hs. rewrite !length_map in Hs. lia.
Qed.

Lemma filter_longer_than_name_witness :
  _computeHighlightedName towlower_C (L "tab") (L "tabs")
  = [make_HighlightedTextSegment (L "tab") false].
Proof.
  apply (filter_longer_than_name towlower_C (L "tab") (L "tabs")).
  vm_compute. lia.
Defined.

Lemma whole_name_segmentation (towlower : wchar -> wchar) (name filter : hstring) :
  map towlower filter = map towlower name ->
  name <> [] ->
  _computeHighlightedName towlower name filter
  = [make_HighlightedTextSegment name true].
Proof.
  intros Heq Hname.
  pose proof (alternating_computeHighlightedName towlower name filter) as Halt.
  destruct (_computeHighlightedName_cases towlower name filter)
    as [(_ & _ & Hns)|(Ht & Hn & _ & G)].
  - destruct Hns. rewrite Heq. apply Subsequence_refl.
  - pose proof (GreedyAssignment_length G) as Hlen.
    rewrite (highlighted_offsets_length _ 0) in Hlen.
    assert (Hfn : length filter = length name)
      by (rewrite <- (length_map towlower filter), Heq; apply length_map).
    assert (Hall : forallb IsHighlighted
                     (_computeHighlightedName towlower name filter) = true)
      by (apply all_highlighted; [exact Hn|rewrite Ht; congruence]).
    pose proof (alternating_all_highlighted _ Halt Hall) as Hone.
    destruct (_computeHighlightedName towlower name filter) as [|s [|s' r]].
    + destruct Hname. symmetry. exact Ht.
    + unfold texts in Ht. simpl in Ht. rewrite app_nil_r in Ht.
      simpl in Hall. rewrite andb_true_r in Hall.
      destruct s as [text h]; simpl in *. congruence.
    + simpl in Hone. lia.
Qed.

(** X7, the whole name typed: when the filter has the lowercase form of
    the name, which is not empty, the segmentation is the whole name as one
    highlighted segment. *)
Theorem whole_name_match (towlower : wchar -> wchar) (name filter : hstring) :
  map towlower filter = map towlower name ->
  name <> [] ->
  _computeHighlightedName towlower name filter
  = [make_HighlightedTextSegment name true].
Proof. apply whole_name_segmentation. Qed.

Lemma whole_name_match_witness :
  _computeHighlightedName towlower_C (L "New Tab") (L "new tab")
  = [make_HighlightedTextSegment (L "New Tab") true].
Proof.
  apply (whole_name_match towlower_C (L "New Tab") (L "new tab")).
  - vm_compute. reflexivity.
  - discriminate.
Defined.

(** ** The weigher *)

Section WeightBounds.

Local Open Scope Z_scope.

Lemma reference_weight_from_between [segs] : forall previous,
  Forall highlighted_nonempty segs ->
  Z.of_nat (length (texts (List.filter IsHighlighted segs)))
  <= reference_weight_from previous segs
  <= 2 * Z.of_nat (length (texts (List.filter IsHighlighted segs))).
Proof.
  induction segs as [|s segs IH]; intros previous Hne;
    cbn [reference_weight_from List.filter]; [simpl; lia|].
  inversion Hne as [|? ? Hs Hne']; subst. specialize (IH (Some s) Hne').
  unfold segment_points. unfold highlighted_nonempty in Hs.
  destruct (IsHighlighted s); [|lia]. cbv zeta.
  change (texts (s :: List.filter IsHighlighted segs))
    with (TextSegment s ++ texts (List.filter IsHighlighted segs)).
  rewrite length_app.
  destruct (TextSegment s) as [|c text]; [destruct (Hs eq_refl eq_refl)|].
  destruct (Z.leb_spec (Z.of_nat (length (c :: text))) 1);
    destruct (word_start_after previous); simpl length in *; lia.
Qed.

Lemma matched_weight_between towlower name filter :
  Z.of_nat (size name) < 2 ^ 30 ->
  Subsequence (map towlower filter) (map towlower name) ->
  Z.of_nat (length filter)
  <= _computeWeight (_computeHighlightedName towlower name filter)
  <= 2 * Z.of_nat (length filter).
Proof.
  intros Hsize Hs.
  pose proof (reference_weight_from_between None
                (highlighted_nonempty_computeHighlightedName towlower name filter))
    as Hb.
  rewrite (matched_length towlower name filter Hs) in Hb.
  apply Subsequence_length in Hs. rewrite !length_map in Hs.
  change (2 ^ 30) with 1073741824 in Hsize. unfold size in Hsize.
  rewrite _computeWeight_in_range; [exact Hb|].
  unfold reference_weight, INT_MAX. change (2 ^ 31) with 2147483648. lia.
Qed.

End WeightBounds.

(** X8, the range of the weight of a match: when the lowercased filter is
    a subsequence of the lowercased name (of fewer than 2^30 code units, so
    that the weight is an [int]), the weight of the segmentation is at least
    the length of the filter and at most twice that length. *)
Theorem weight_of_match_bounds (towlower : wchar -> wchar) (name filter : hstring) :
  (Z.of_nat (size name) < 2 ^ 30)%Z ->
  Subsequence (map towlower filter) (map towlower name) ->
  (Z.of_nat (length filter)
   <= _computeWeight (_computeHighlightedName towlower name filter)
   <= 2 * Z.of_nat (length filter))%Z.
Proof. apply matched_weight_between. Qed.

Lemma weight_of_match_bounds_witness :
  (2 <= _computeWeight (_computeHighlightedName towlower_C (L "Close Pane") (L "sp"))
   <= 4)%Z.
Proof.
  apply (weight_of_match_bounds towlower_C (L "Close Pane") (L "sp")).
  - vm_compute. reflexivity.
  - rewrite <- subsequenceb_spec. vm_compute. reflexivity.
Defined.

(** X9, shown or not: for a filter that is not empty (and a name of fewer
    than 2^30 code units), the weight of the segmentation is positive
    exactly when the lowercased filter is a subsequence of the lowercased
    name, and it is 0 otherwise. *)
Theorem weight_positive_iff_subsequence (towlower : wchar -> wchar)
    (name filter : hstring) :
  (Z.of_nat (size name) < 2 ^ 30)%Z ->
  filter <> [] ->
  ((0 < _computeWeight (_computeHighlightedName towlower name filter))%Z
   <-> Subsequence (map towlower filter) (map towlower name)) /\
  (~ Subsequence (map towlower filter) (map towlower name) ->
   _computeWeight (_computeHighlightedName towlower name filter) = 0%Z).
Proof.
  intros Hsize Hne.
  destruct (_computeHighlightedName_cases towlower name filter)
    as [(E & _ & Hns)|(_ & _ & Hs & _)].
  - rewrite E. split; [split; [discriminate|contradiction]|reflexivity].
  - pose proof (matched_weight_between towlower name filter Hsize Hs) as Hb.
    split; [|contradiction].
    split; [intros _; exact Hs|]. intros _.
    destruct filter; [contradiction|]. simpl length in Hb. lia.
Qed.

Lemma weight_positive_iff_subsequence_witness :
  (0 < _computeWeight (_computeHighlightedName towlower_C (L "Split Pane") (L "sp")))%Z.
Proof.
  apply (weight_positive_iff_subsequence towlower_C (L "Split Pane") (L "sp")).
  - vm_compute. reflexivity.
  - discriminate.
  - rewrite <- subsequenceb_spec. vm_compute. reflexivity.
Defined.

(** ** The ordering *)

Section CompareOrder.

Local Open Scope Z_scope.

Lemma Compare_true_iff a b :
  Compare a b = 1 <->
  _Weight a > _Weight b \/
  (_Weight a = _Weight b /\ lex_lt (_Command_Name a) (_Command_Name b)).
Proof.
  unfold Compare.
  pose proof (wstring_view_compare_lt (_Command_Name a) (_Command_Name b)) as Hlt.
  destruct (Z.eqb_spec (_Weight a) (_Weight b)) as [Hw|Hw].
  - destruct (Z.ltb_spec (wstring_view_compare (_Command_Name a) (_Command_Name b)) 0)
      as [Hneg|Hpos]; simpl Z.b2z.
    + split; [intros _; right; split; [assumption|apply Hlt; assumption]|reflexivity].
    + split; [discriminate|]. intros [Hgt|[_ Hl]]; [lia|]. apply Hlt in Hl. lia.
  - unfold Z.gtb. destruct (Z.compare_spec (_Weight a) (_Weight b)); simpl.
    + contradiction.
    + split; [discriminate|]. intros [Hgt|[E _]]; [lia|contradiction].
    + split; [intros _; left; lia|reflexivity].
Qed.

Lemma Compare_bool a b : Compare a b = 1 \/ Compare a b = 0.
Proof.
  unfold Compare. destruct (_Weight a =? _Weight b);
    match goal with |- Z.b2z ?c = _ \/ _ => destruct c end; simpl; auto.
Qed.

Lemma lex_lt_irrefl [a] : ~ lex_lt a a.
Proof.
  induction a as [|x a IH]; intros H; inversion H; subst; [lia|auto].
Qed.

Lemma lex_lt_trans [a b] : lex_lt a b -> forall c, lex_lt b c -> lex_lt a c.
Proof.
  induction 1 as [y b|x a y b Hxy|x a b Hab IH]; intros c Hbc;
    inversion Hbc; subst.
  - constructor.
  - constructor.
  - apply lex_lt_head. lia.
  - apply lex_lt_head. assumption.
  - apply lex_lt_head. assumption.
  - apply lex_lt_tail. apply IH. assumption.
Qed.

End CompareOrder.

(** X10, the ordering is strict: no command is before itself, and of two
    commands at most one is before the other. *)
Theorem Compare_strict (a b : FilteredCommand) :
  Compare a a = 0%Z /\ (Compare a b = 1%Z -> Compare b a = 0%Z).
Proof.
  assert (Hirr : forall c, Compare c c = 0%Z).
  { intros c. destruct (Compare_bool c c) as [H|H]; [|exact H].
    apply Compare_true_iff in H as [H|[_ H]]; [lia|].
    destruct (lex_lt_irrefl H). }
  split; [apply Hirr|]. intros Hab.
  destruct (Compare_bool b a) as [Hba|Hba]; [|exact Hba].
  apply Compare_true_iff in Hab. apply Compare_true_iff in Hba.
  destruct Hab as [Hab|[Ew Hab]], Hba as [Hba|[Ew' Hba]]; try lia.
  destruct (lex_lt_irrefl (lex_lt_trans Hab _ Hba)).
Qed.

Lemma Compare_strict_witness :
  let A := {| _Command_Name := L "Close Tab"; _Filter := L "c";
              _HighlightedName := []; _Weight := 5; highlightedNamesMade := 0 |} in
  let B := {| _Command_Name := L "Close Pane"; _Filter := L "c";
              _HighlightedName := []; _Weight := 5; highlightedNamesMade := 0 |} in
  Compare A B = 0%Z.
Proof.
  intros A B. apply (proj2 (Compare_strict B A)). vm_compute. reflexivity.
Defined.

(** X11, the ordering is transitive: a command before a second one that is
    before a third one is before the third one. *)
Theorem Compare_transitive (a b c : FilteredCommand) :
  Compare a b = 1%Z -> Compare b c = 1%Z -> Compare a c = 1%Z.
Proof.
  rewrite !Compare_true_iff.
  intros [Hab|[Eab Hab]] [Hbc|[Ebc Hbc]].
  - left; lia.
  - left; lia.
  - left; lia.
  - right. split; [congruence|]. exact (lex_lt_trans Hab _ Hbc).
Qed.

Lemma Compare_transitive_witness :
  let A := {| _Command_Name := L "Split Pane"; _Filter := L "sp";
              _HighlightedName := []; _Weight := 4; highlightedNamesMade := 0 |} in
  let B := {| _Command_Name := L "Close Pane"; _Filter := L "sp";
              _HighlightedName := []; _Weight := 3; highlightedNamesMade := 0 |} in
  let C := {| _Command_Name := L "Open Settings"; _Filter := L "sp";
              _HighlightedName := []; _Weight := 3; highlightedNamesMade := 0 |} in
  Compare A C = 1%Z.
Proof.
  intros A B C. apply (Compare_transitive A B C); vm_compute; reflexivity.
Defined.

(** ** The view model *)

Lemma UpdateFilter_properties towlower filter this :
  consistent towlower this ->
  _Command_Name (UpdateFilter towlower filter this) = _Command_Name this /\
  _Filter (UpdateFilter towlower filter this) = filter /\
  _HighlightedName (UpdateFilter towlower filter this)
  = _computeHighlightedName towlower (_Command_Name this) filter /\
  _Weight (UpdateFilter towlower filter this)
  = _computeWeight (_computeHighlightedName towlower (_Command_Name this) filter).
Proof.
  intros [Hh Hw]. unfold UpdateFilter.
  destruct (hstring_eq_dec filter (_Filter this)) as [->|_].
  - repeat split; congruence.
  - repeat split.
Qed.

(** X12, the last filter decides: on a command whose derived fields are
    consistent, updating the filter twice leaves the name, the filter, the
    highlighted name and the weight as updating it once to the second
    filter does. *)
Theorem UpdateFilter_last_wins (towlower : wchar -> wchar)
    (filter1 filter2 : hstring) (this : FilteredCommand) :
  consistent towlower this ->
  same_properties
    (UpdateFilter towlower filter2 (UpdateFilter towlower filter1 this))
    (UpdateFilter towlower filter2 this).
Proof.
  intros Hc.
  pose proof (consistent_handle towlower this (UpdateFilter_called filter1) Hc)
    as Hc1. simpl in Hc1.
  destruct (UpdateFilter_properties towlower filter1 this Hc) as (N1 & _).
  destruct (UpdateFilter_properties towlower filter2 this Hc) as (N & F & H & W).
  destruct (UpdateFilter_properties towlower filter2 _ Hc1) as (N' & F' & H' & W').
  unfold same_properties. rewrite N, F, H, W, N', F', H', W', N1.
  repeat split.
Qed.

Lemma UpdateFilter_last_wins_witness :
  same_properties
    (UpdateFilter towlower_C (L "sp")
       (UpdateFilter towlower_C (L "s") (construct towlower_C (L "Split Pane"))))
    (UpdateFilter towlower_C (L "sp") (construct towlower_C (L "Split Pane"))).
Proof.
  apply (UpdateFilter_last_wins towlower_C (L "s") (L "sp")).
  split; vm_compute; reflexivity.
Defined.

Lemma highlightedNamesMade_handle towlower this e :
  highlightedNamesMade (handle towlower this e)
  <= S (highlightedNamesMade this).
Proof.
  destruct e as [filter|name|PropertyName]; cbn [handle];
    unfold UpdateFilter, on_Command_PropertyChanged;
    match goal with |- context [hstring_eq_dec ?a ?b] =>
      destruct (hstring_eq_dec a b) end; simpl; lia.
Qed.

(** X13, at most one segmentation for each call: after the construction
    and any calls of [UpdateFilter] and notifications, the segmenter has run
    at most once for the construction and once for each call or
    notification. *)
Theorem segmentations_bounded (towlower : wchar -> wchar) (command_Name : hstring)
    (events : list event) :
  highlightedNamesMade (history towlower command_Name events)
  <= S (length events).
Proof.
  unfold history.
  assert (H : forall this,
             highlightedNamesMade (fold_left (handle towlower) events this)
             <= highlightedNamesMade this + length events).
  { induction events as [|e events IH]; intros this; simpl; [lia|].
    pose proof (highlightedNamesMade_handle towlower this e).
    specialize (IH (handle towlower this e)). lia. }
  specialize (H (construct towlower command_Name)). simpl in H. lia.
Qed.

(** ** The weight of simple matches *)

Section SimpleMatches.

Local Open Scope Z_scope.

Lemma no_offsets_unhighlighted segs : forall o,
  Forall (fun s => TextSegment s <> []) segs ->
  highlighted_offsets o segs = [] ->
  Forall (fun s => IsHighlighted s = false) segs.
Proof.
  induction segs as [|s segs IH]; intros o Hne Ho; [constructor|].
  inversion Hne as [|? ? Hs Hne']; subst. simpl in Ho.
  apply app_eq_nil in Ho as [H1 H2].
  constructor; [|apply (IH _ Hne' H2)].
  destruct (IsHighlighted s); [|reflexivity].
  destruct (TextSegment s); [contradiction|discriminate].
Qed.

Lemma unhighlighted_weight [segs] previous :
  Forall (fun s => IsHighlighted s = false) segs ->
  reference_weight_from previous segs = 0.
Proof.
  intros H. apply reference_weight_from_zero; [|exact H].
  eapply Forall_impl; [|exact H]. intros s Hs Hh. congruence.
Qed.

Lemma seq_app_singleton start len rest (i : nat) :
  len <> 0%nat -> seq start len ++ rest = [i] ->
  i = start /\ len = 1%nat /\ rest = [].
Proof.
  destruct len as [|len]; [contradiction|]. intros _ H. simpl in H.
  injection H as Hi Hrest. apply app_eq_nil in Hrest as [Hseq Hr].
  destruct len; [auto|discriminate].
Qed.

(** The weight of a segmentation with one highlighted character. *)
Lemma single_highlight_weight [segs] [name : hstring] [i : nat] :
  texts segs = name ->
  Forall (fun s => TextSegment s <> []) segs ->
  alternating segs = true ->
  highlighted_offsets 0 segs = [i] ->
  reference_weight segs
  = if (i =? 0)%nat || (nth (i - 1) name 0 =? space) then 2 else 1.
Proof.
  intros Ht Hne Halt Ho. unfold reference_weight.
  destruct segs as [|s1 rest]; [discriminate|].
  inversion Hne as [|? ? Hs1 Hne1]; subst.
  cbn [highlighted_offsets reference_weight_from] in *.
  assert (Hlen1 : length (TextSegment s1) <> 0%nat)
    by (destruct (TextSegment s1); [contradiction|discriminate]).
  unfold segment_points at 1.
  destruct (IsHighlighted s1) eqn:H1.
  - apply seq_app_singleton in Ho as (-> & Hl1 & Ho); [|exact Hlen1].
    rewrite (unhighlighted_weight _ (no_offsets_unhighlighted _ _ Hne1 Ho)).
    rewrite Hl1. reflexivity.
  - simpl in Ho. destruct rest as [|s2 rest]; [discriminate|].
    inversion Hne1 as [|? ? Hs2 Hne2]; subst.
    cbn [highlighted_offsets reference_weight_from] in *.
    assert (Hlen2 : length (TextSegment s2) <> 0%nat)
      by (destruct (TextSegment s2); [contradiction|discriminate]).
    change (alternating (s1 :: s2 :: rest))
      with (negb (eqb (IsHighlighted s1) (IsHighlighted s2))
            && alternating (s2 :: rest)) in Halt.
    apply andb_true_iff in Halt as [H12 _]. rewrite H1 in H12.
    assert (H2 : IsHighlighted s2 = true)
      by (destruct (IsHighlighted s2); [reflexivity|discriminate]).
    rewrite H2 in Ho.
    apply seq_app_singleton in Ho as (-> & Hl2 & Ho); [|exact Hlen2].
    rewrite (unhighlighted_weight _ (no_offsets_unhighlighted _ _ Hne2 Ho)).
    unfold segment_points. rewrite H2, Hl2. cbv zeta.
    replace (length (TextSegment s1) =? 0)%nat with false
      by (symmetry; apply Nat.eqb_neq; exact Hlen1).
    change (texts (s1 :: s2 :: rest))
      with (TextSegment s1 ++ texts (s2 :: rest)).
    rewrite app_nth1 by lia. rewrite nth_pred_length_last.
    unfold word_start_after. destruct (TextSegment s1); [contradiction|].
    match goal with
    | |- context [last ?l ?d =? space] => destruct (last l d =? space)
    end; reflexivity.
Qed.

Lemma single_character_match towlower (name : hstring) c i ch :
  nth_error name i = Some ch ->
  towlower ch = towlower c ->
  (forall j ch', (j < i)%nat -> nth_error name j = Some ch' ->
                 towlower ch' <> towlower c) ->
  _computeWeight (_computeHighlightedName towlower name [c])
  = if (i =? 0)%nat || (nth (i - 1) name 0 =? space) then 2 else 1.
Proof.
  intros Hi Hl Hb.
  pose proof (alternating_computeHighlightedName towlower name [c]) as Halt.
  destruct (_computeHighlightedName_cases towlower name [c])
    as [(_ & _ & Hns)|(Ht & Hn & _ & G)].
  - destruct Hns. simpl map.
    apply (first_match_Subsequence towlower [] i 0 eq_refl Hi Hl).
    + intros j ch' Hj. apply Hb. lia.
    + constructor.
  - assert (Ho : highlighted_offsets 0 (_computeHighlightedName towlower name [c])
                 = [i]).
    { inversion G as [|? ? ? i' c' offsets Hle Hc' Hl' Hb' G']; subst.
      inversion G'; subst. f_equal.
      destruct (Nat.lt_trichotomy i' i) as [Hlt|[Heq|Hgt]]; [|exact Heq|].
      - destruct (Hb i' c' Hlt Hc' Hl').
      - destruct (Hb' i ch ltac:(lia) Hi Hl). }
    pose proof (single_highlight_weight Ht Hn Halt Ho) as Hw.
    rewrite _computeWeight_in_range; [exact Hw|].
    rewrite Hw. unfold INT_MAX.
    destruct ((i =? 0)%nat || (nth (i - 1) name 0 =? space)); discriminate.
Qed.

Lemma whole_name_weight towlower (name filter : hstring) :
  Z.of_nat (size name) < 2 ^ 30 ->
  map towlower filter = map towlower name ->
  name <> [] ->
  _computeWeight (_computeHighlightedName towlower name filter)
  = 2 * Z.of_nat (length name).
Proof.
  intros Hsize Heq Hname.
  rewrite (whole_name_segmentation towlower name filter Heq Hname).
  change (2 ^ 30) with 1073741824 in Hsize. unfold size in Hsize.
  assert (Hr : reference_weight [make_HighlightedTextSegment name true]
               = 2 * Z.of_nat (length name)).
  { unfold reference_weight, reference_weight_from, segment_points.
    cbn [IsHighlighted TextSegment word_start_after].
    destruct name as [|c name]; [contradiction|].
    destruct (Z.leb_spec (Z.of_nat (length (c :: name))) 1);
      simpl length in *; lia. }
  rewrite _computeWeight_in_range; [exact Hr|].
  rewrite Hr. unfold INT_MAX. change (2 ^ 31) with 2147483648. lia.
Qed.

End SimpleMatches.

(** X14, one character typed: for a filter of one character, matched at
    its first occurrence in the name, the weight is 2 when that occurrence
    is the first character of the name or follows a space, and 1
    otherwise. *)
Theorem single_character_weight (towlower : wchar -> wchar) (name : hstring)
    (c : wchar) (i : nat) (ch : wchar) :
  nth_error name i = Some ch ->
  towlower ch = towlower c ->
  (forall j ch', j < i -> nth_error name j = Some ch' ->
                 towlower ch' <> towlower c) ->
  _computeWeight (_computeHighlightedName towlower name [c])
  = if (i =? 0) || (nth (i - 1) name 0%Z =? space)%Z then 2%Z else 1%Z.
Proof. apply single_character_match. Qed.

Lemma single_character_weight_witness :
  _computeWeight (_computeHighlightedName towlower_C (L "Close Pane") (L "p"))
  = 2%Z.
Proof.
  apply (single_character_weight towlower_C (L "Close Pane") 112%Z 6 80%Z).
  - reflexivity.
  - reflexivity.
  - intros j ch' Hj.
    do 6 (destruct j as [|j]; [intros [= <-]; vm_compute; discriminate|]).
    lia.
Defined.

(** X15, the whole name typed scores highest: when the filter has the
    lowercase form of the name (not empty, of fewer than 2^30 code units),
    the weight is twice the length of the name. *)
Theorem weight_of_whole_name (towlower : wchar -> wchar) (name filter : hstring) :
  (Z.of_nat (size name) < 2 ^ 30)%Z ->
  map towlower filter = map towlower name ->
  name <> [] ->
  _computeWeight (_computeHighlightedName towlower name filter)
  = (2 * Z.of_nat (length name))%Z.
Proof. apply whole_name_weight. Qed.

Lemma weight_of_whole_name_witness :
  _computeWeight (_computeHighlightedName towlower_C (L "New Tab") (L "new tab"))
  = 14%Z.
Proof.
  apply (weight_of_whole_name towlower_C (L "New Tab") (L "new tab")).
  - vm_compute. reflexivity.
  - vm_compute. reflexivity.
  - discriminate.
Defined.

(** ** The case of the name *)

Section NameCase.

Variable towlower : wchar -> wchar.
Variables name1 name2 : hstring.
Hypothesis same_lowercase : map towlower name1 = map towlower name2.

Lemma same_length : length name1 = length name2.
Proof.
  rewrite <- (length_map towlower name1), same_lowercase. apply length_map.
Qed.

Lemma length_substr_same offset count :
  length (substr name1 offset count) = length (substr name2 offset count).
Proof.
  unfold substr. rewrite !length_firstn, !length_skipn, same_length.
  reflexivity.
Qed.

Lemma shape_snoc segs1 segs2 offset count b :
  shape segs1 = shape segs2 ->
  shape (segs1 ++ [make_HighlightedTextSegment (substr name1 offset count) b])
  = shape (segs2 ++ [make_HighlightedTextSegment (substr name2 offset count) b]).
Proof.
  intros H. unfold shape in *. rewrite !map_app, H. simpl.
  rewrite length_substr_same. reflexivity.
Qed.

Lemma same_shape_scan_char m st1 st2 :
  same_shape st1 st2 ->
  same_shape (scan_char name1 m st1) (scan_char name2 m st2).
Proof.
  destruct st1 as [segs1 p1 next1 cur1], st2 as [segs2 p2 next2 cur2].
  unfold same_shape, scan_char, conclude_region; scan_fields.
  intros (Hs & <- & <- & <-).
  destruct (eqb p1 m); scan_fields; [repeat split; assumption|].
  destruct (0 <? cur1 - next1); scan_fields; repeat split; try assumption.
  apply shape_snoc, Hs.
Qed.

Lemma same_char i :
  option_map towlower (nth_error name1 i) = option_map towlower (nth_error name2 i).
Proof. rewrite <- !nth_error_map, same_lowercase. reflexivity. Qed.

Lemma same_exit_scan_name lc st1 st2 :
  same_shape st1 st2 ->
  same_exit (scan_name towlower name1 lc st1) (scan_name towlower name2 lc st2).
Proof.
  remember (size name1 - currentOffset st1) as n eqn:Hn.
  revert st1 st2 Hn. induction n as [n IH] using lt_wf_ind.
  intros st1 st2 Hn Hs.
  rewrite (scan_name_eq towlower name1 lc st1), (scan_name_eq towlower name2 lc st2).
  pose proof (same_char (currentOffset st1)) as Hc.
  assert (Hcur : currentOffset st1 = currentOffset st2) by apply Hs.
  rewrite <- Hcur.
  destruct (nth_error name1 (currentOffset st1)) as [c1|] eqn:H1;
    destruct (nth_error name2 (currentOffset st1)) as [c2|] eqn:H2;
    try discriminate.
  - simpl in Hc. injection Hc as Hc. rewrite Hc.
    destruct (towlower c2 =? lc)%Z.
    + apply same_shape_scan_char, Hs.
    + apply (IH (size name1 - currentOffset (scan_char name1 false st1))).
      * rewrite currentOffset_scan_char.
        assert (currentOffset st1 < length name1)
          by (apply nth_error_Some; congruence).
        unfold size in Hn |- *. lia.
      * reflexivity.
      * apply same_shape_scan_char, Hs.
  - simpl. unfold shape. simpl. rewrite same_length. reflexivity.
Qed.

Lemma same_exit_scan_filter filter : forall st1 st2,
  same_shape st1 st2 ->
  same_exit (scan_filter towlower name1 filter st1)
            (scan_filter towlower name2 filter st2).
Proof.
  induction filter as [|searchChar filter IH]; intros st1 st2 Hs; simpl.
  - exact Hs.
  - pose proof (same_exit_scan_name (towlower searchChar) st1 st2 Hs) as H.
    destruct (scan_name towlower name1 (towlower searchChar) st1) as [r1|st1'];
      destruct (scan_name towlower name2 (towlower searchChar) st2) as [r2|st2'];
      try contradiction.
    + exact H.
    + apply IH, H.
Qed.

Lemma same_shape_conclude st1 st2 :
  same_shape st1 st2 ->
  shape (conclude_remaining name1 (conclude_matched name1 st1))
  = shape (conclude_remaining name2 (conclude_matched name2 st2)).
Proof.
  destruct st1 as [segs1 p1 next1 cur1], st2 as [segs2 p2 next2 cur2].
  unfold same_shape, conclude_remaining, conclude_matched, size; scan_fields.
  intros (Hs & <- & <- & <-). rewrite <- same_length.
  destruct p1; [destruct (0 <? cur1 - next1)|]; scan_fields;
    match goal with
    | |- context [0 <? ?k] => destruct (0 <? k)
    end;
    repeat apply shape_snoc; exact Hs.
Qed.

Lemma same_shape_computeHighlightedName filter :
  shape (_computeHighlightedName towlower name1 filter)
  = shape (_computeHighlightedName towlower name2 filter).
Proof.
  unfold _computeHighlightedName.
  set (st := {| segments := []; isProcessingMatchedSegment := false;
                nextOffsetToReport := 0; currentOffset := 0 |}).
  assert (H0 : same_shape st st) by (repeat split).
  pose proof (same_exit_scan_filter filter st st H0) as H.
  destruct (scan_filter towlower name1 filter st) as [r1|st1];
    destruct (scan_filter towlower name2 filter st) as [r2|st2];
    try contradiction.
  - exact H.
  - apply same_shape_conclude, H.
Qed.

End NameCase.

(** X16, the case of the name: two names with the same lowercase form are
    cut for every filter into segments of the same lengths and the same
    classifications. *)
Theorem name_case_insensitive (towlower : wchar -> wchar)
    (name1 name2 filter : hstring) :
  map towlower name1 = map towlower name2 ->
  map (fun s => (length (TextSegment s), IsHighlighted s))
    (_computeHighlightedName towlower name1 filter)
  = map (fun s => (length (TextSegment s), IsHighlighted s))
      (_computeHighlightedName towlower name2 filter).
Proof.
  intros H. exact (same_shape_computeHighlightedName towlower name1 name2 H filter).
Qed.

Lemma name_case_insensitive_witness :
  map (fun s => (length (TextSegment s), IsHighlighted s))
    (_computeHighlightedName towlower_C (L "Close Pane") (L "cp"))
  = map (fun s => (length (TextSegment s), IsHighlighted s))
      (_computeHighlightedName towlower_C (L "CLOSE PANE") (L "cp")).
Proof.
  apply (name_case_insensitive towlower_C (L "Close Pane") (L "CLOSE PANE") (L "cp")).
  vm_compute. reflexivity.
Defined.

(** ** The highlighted characters *)

Lemma nth_seq_middle (d : wchar) (t : hstring) : forall pre post,
  map (fun i => nth i (pre ++ t ++ post) d) (seq (length pre) (length t)) = t.
Proof.
  induction t as [|x t IH]; intros pre post; [reflexivity|].
  cbn [length seq map]. f_equal.
  - apply nth_middle.
  - specialize (IH (pre ++ [x]) post).
    rewrite length_app, Nat.add_1_r, <- app_assoc in IH. exact IH.
Qed.

Lemma highlighted_offsets_texts (d : wchar) segs : forall pre post,
  map (fun i => nth i (pre ++ texts segs ++ post) d)
    (highlighted_offsets (length pre) segs)
  = texts (List.filter IsHighlighted segs).
Proof.
  induction segs as [|s segs IH]; intros pre post; [reflexivity|].
  cbn [highlighted_offsets List.filter].
  change (texts (s :: segs)) with (TextSegment s ++ texts segs).
  rewrite map_app.
  specialize (IH (pre ++ TextSegment s) post).
  rewrite length_app, <- !app_assoc in IH. rewrite <- app_assoc, IH.
  destruct (IsHighlighted s); [|reflexivity].
  change (texts (s :: List.filter IsHighlighted segs))
    with (TextSegment s ++ texts (List.filter IsHighlighted segs)).
  f_equal. apply nth_seq_middle.
Qed.

Lemma GreedyAssignment_spells [towlower name cursor filter offsets] (d : wchar) :
  GreedyAssignment towlower name cursor filter offsets ->
  map towlower (map (fun i => nth i name d) offsets) = map towlower filter.
Proof.
  induction 1 as [|cursor searchChar filter i c offsets Hi Hc Hl Hb G IH];
    [reflexivity|].
  simpl. rewrite IH. f_equal. rewrite (nth_error_nth _ _ d Hc). exact Hl.
Qed.

Lemma matched_spelling towlower name filter :
  Subsequence (map towlower filter) (map towlower name) ->
  map towlower (texts (List.filter IsHighlighted
                         (_computeHighlightedName towlower name filter)))
  = map towlower filter.
Proof.
  intros Hs.
  destruct (_computeHighlightedName_cases towlower name filter)
    as [(_ & _ & Hns)|(Ht & _ & _ & G)]; [contradiction|].
  rewrite <- (GreedyAssignment_spells 0%Z G). f_equal.
  pose proof (highlighted_offsets_texts 0%Z
                (_computeHighlightedName towlower name filter) [] []) as H.
  rewrite app_nil_r, Ht in H. simpl in H. symmetry. exact H.
Qed.

(** X17, the highlighted characters spell the filter: when the lowercased
    filter is a subsequence of the lowercased name, the texts of the
    highlighted segments, in order and lowercased, are the lowercased
    filter. *)
Theorem highlighted_spell_filter (towlower : wchar -> wchar)
    (name filter : hstring) :
  Subsequence (map towlower filter) (map towlower name) ->
  map towlower (concat (map TextSegment
                          (List.filter IsHighlighted
                             (_computeHighlightedName towlower name filter))))
  = map towlower filter.
Proof. apply matched_spelling. Qed.

Lemma highlighted_spell_filter_witness :
  map towlower_C
    (concat (map TextSegment
               (List.filter IsHighlighted
                  (_computeHighlightedName towlower_C (L "Split Pane") (L "sp")))))
  = map towlower_C (L "sp").
Proof.
  apply (highlighted_spell_filter towlower_C (L "Split Pane") (L "sp")).
  rewrite <- subsequenceb_spec. vm_compute. reflexivity.
Defined.

(** ** The weight of a very long name *)

